(** * The log driver of the Splunk logging plugin (driver.go)

    A shallow embedding of [driver], [logPair] and the three host-facing
    operations [StartLogging], [StopLogging] and [ReadLogs], together with
    the goroutine that [ReadLogs] launches to re-encode the history of the
    json-file logger as length-delimited frames.

    Conventions of the embedding.
    - The Go maps [d.logs] and [d.idx] are finite maps from strings to
      [logPair] pointers.  A [*logPair] is never written after line 103
      builds it, so a pointer is represented by the address it was
      allocated at together with the (immutable) fields it points to;
      pointer identity is equality of [addr].
    - Objects that do change (loggers, the fifo, pipes) live in a heap and
      are referred to by address.
    - Every region bracketed by [d.mu.Lock()] / [d.mu.Unlock()] is one
      state transformer; the operations are composed sequentially.
    - Calls that leave the file (os, filepath, jsonfilelog, fifo, and the
      plugin's own [ValidateLogOpt] and [New]) are taken from an
      environment record, one field per callee, so that every outcome the
      callee can have is covered.
    - [go f(x)] records a task; what the task does is a function of its
      own, run separately from the operation that launched it. *)

From Stdlib Require Import ZArith Lia.
From Stdlib.Strings Require Import Byte.
From stdpp Require Import gmap strings list fin_maps.

(** ** Errors *)

(** The error values the file builds.  Constructors follow the Go
    expressions that create them. *)
Inductive error : Type :=
  | ErrAlreadyExists (file : string)
      (* fmt.Errorf("logger for %q already exists", file) *)
  | ErrNotFound (containerID : string)
      (* fmt.Errorf("logger does not exist for %s", info.ContainerID) *)
  | ErrUnsupported
      (* fmt.Errorf("logger does not support reading") *)
  | ErrWrap (cause : error) (msg : string)
      (* errors.Wrap(err, msg) *)
  | ErrWrapf (cause : error) (msg : string) (arg : string)
      (* errors.Wrapf(err, msg, arg) *)
  | ErrExternal (msg : string)
      (* an error produced by a callee outside this file *)
  | ErrClosedPipe
      (* io.ErrClosedPipe *)
  | EOF.
      (* io.EOF *)

#[global] Instance error_eq_dec : EqDecision error.
Proof. solve_decision. Defined.

(** ** Data *)

Abbreviation loc := nat (only parsing).

(** logger.Info, restricted to the fields driver.go reads. *)
Record Info : Type := mkInfo {
  ContainerID : string;
  LogPath : string;
  Config : gmap string string;
}.

Definition with_LogPath (p : string) (i : Info) : Info :=
  {| ContainerID := ContainerID i; LogPath := p; Config := Config i |}.

(** logger.ReadConfig. Times are kept as Unix nanoseconds. *)
Record ReadConfig : Type := mkReadConfig {
  Since : Z;
  Tail : Z;
  Follow : bool;
}.

(** What the driver can tell about the dynamic type of a logger.Logger:
    whether it also implements logger.LogReader. *)
Record LoggerType : Type := mkLoggerType {
  implements_LogReader : bool;
}.

(** A logger.Logger interface value: the dynamic type and the address of
    the logger. *)
Record Logger : Type := mkLogger {
  dyn_type : LoggerType;
  data : loc;
}.

(** type logPair struct, reached through a pointer whose address is [addr]. *)
Record logPair : Type := mkLogPair {
  addr : loc;
  jsonl : Logger;
  splunkl : Logger;
  stream : loc;
  info : Info;
}.

(** An io.Pipe. [delivered] are the bytes the reading side has taken,
    [werr] is set once the writing side is closed (io.EOF for a plain
    Close), and [reader_budget] is how many more bytes the reading side
    takes before it closes its end ([None]: it never closes). *)
Record Pipe : Type := mkPipe {
  delivered : list Byte.byte;
  werr : option error;
  reader_budget : option nat;
}.

Inductive obj : Type :=
  | OLogger (closed : bool)
  | OFifo (file : string) (closed : bool)
  | OPipe (p : Pipe).

(** Goroutines launched with [go]. *)
Inductive Task : Type :=
  | TProcess (lf : logPair)                       (* go mg.process(lf) *)
  | TBridge (lr : Logger) (config : ReadConfig) (w : loc).  (* go func() {...}() *)

(** type driver struct.  [mu] guards the two maps and is not a field here
    (the locked regions are atomic steps); the field [logger] is never
    read or written. *)
Record driver : Type := mkDriver {
  logs : gmap string logPair;   (* map for file and logger *)
  idx : gmap string logPair;    (* map for container_id and logger *)
}.

(** The driver and the objects around it. *)
Record World : Type := mkWorld {
  drv :> driver;
  heap : gmap loc obj;
  next : loc;
  tasks : list Task;
}.

Definition set_logs (f : gmap string logPair → gmap string logPair) (w : World) : World :=
  {| drv := {| logs := f (logs w); idx := idx w |};
     heap := heap w; next := next w; tasks := tasks w |}.
Definition set_idx (f : gmap string logPair → gmap string logPair) (w : World) : World :=
  {| drv := {| logs := logs w; idx := f (idx w) |};
     heap := heap w; next := next w; tasks := tasks w |}.
Definition set_heap (f : gmap loc obj → gmap loc obj) (w : World) : World :=
  {| drv := drv w; heap := f (heap w); next := next w; tasks := tasks w |}.
Definition set_next (f : loc → loc) (w : World) : World :=
  {| drv := drv w; heap := heap w; next := f (next w); tasks := tasks w |}.
Definition set_tasks (f : list Task → list Task) (w : World) : World :=
  {| drv := drv w; heap := heap w; next := next w; tasks := f (tasks w) |}.

(** func newDriver() *driver *)
Definition newDriver : driver :=
  {| logs := ∅; idx := ∅ |}.

(** A new driver, before anything else exists. *)
Definition boot : World :=
  {| drv := newDriver; heap := ∅; next := 0; tasks := [] |}.

(** ** The monad of the operations: state, and an error that ends the call

    A Go [return err] keeps every effect made before it, so the world is
    threaded through failures as well. *)

Inductive result (A : Type) : Type :=
  | Ok (a : A)
  | Fail (e : error).
Arguments Ok {A} a.
Arguments Fail {A} e.

Definition M (A : Type) : Type := World → result A * World.

#[global] Instance M_ret : MRet M := λ A a w, (Ok a, w).
#[global] Instance M_bind : MBind M := λ A B k m w,
  match m w with
  | (Ok a, w') => k a w'
  | (Fail e, w') => (Fail e, w')
  end.

Definition throw {A} (e : error) : M A := λ w, (Fail e, w).
Definition gets {A} (f : World → A) : M A := λ w, (Ok (f w), w).
Definition modify (f : World → World) : M unit := λ w, (Ok tt, f w).

(** Allocate a heap object at the next address. *)
Definition alloc (o : obj) : M loc := λ w,
  (Ok (next w), set_next S (set_heap <[next w := o]> w)).

(** Reserve the address of a struct that is not kept in [heap]. *)
Definition new_addr : M loc := λ w, (Ok (next w), set_next S w).

(** go t *)
Definition go (t : Task) : M unit := modify (set_tasks (λ ts, ts ++ [t])).

(** ** The callees outside driver.go *)

Record Env : Type := mkEnv {
  filepath_Join : string → string → string;
  filepath_Dir : string → string;
  os_MkdirAll : string → Z → option error;
  jsonfilelog_New : Info → error + LoggerType;
  ValidateLogOpt : gmap string string → option error;
  New : Info → error + LoggerType;
  fifo_OpenFifo : string → option error;
}.

(** [if err != nil { return wrap(err) }] for a callee that returns only
    an error. *)
Definition check (r : option error) (wrap : error → error) : M unit :=
  match r with
  | None => mret tt
  | Some err => throw (wrap err)
  end.

(** The same for a constructor: on success the new object is on the heap. *)
Definition construct (r : error + LoggerType) (wrap : error → error) : M Logger :=
  match r with
  | inr ty => l ← alloc (OLogger false); mret (mkLogger ty l)
  | inl err => throw (wrap err)
  end.

(** ** StartLogging (lines 61-114) *)

(** Lines 71-73: the default log path. *)
Definition resolve_LogPath (E : Env) (logCtx : Info) : Info :=
  if decide (LogPath logCtx = "")
  then with_LogPath (filepath_Join E "/var/log/docker" (ContainerID logCtx)) logCtx
  else logCtx.

Definition StartLogging (E : Env) (file : string) (logCtx : Info) : M unit :=
  (* d.mu.Lock() *)
  (* check if the specific file is already attached to a logger *)
  lf0 ← gets (λ w, logs w !! file);
  if lf0 is Some _ then throw (ErrAlreadyExists file) else
  (* d.mu.Unlock(); lines 71-100 run without the lock *)
  (* if there isn't a logger for the file, create a logger handler *)
  let logCtx := resolve_LogPath E logCtx in
  check (os_MkdirAll E (filepath_Dir E (LogPath logCtx)) 493%Z (* 0755 *))
        (λ err, ErrWrap err "error setting up logger dir");;
  (* create a json logger for the file *)
  jsonl ← construct (jsonfilelog_New E logCtx)
        (λ err, ErrWrap err "error creating jsonfile logger");
  check (ValidateLogOpt E (Config logCtx))
        (λ err, ErrWrapf err "error options logger splunk: %q" file);;
  (* create a splunk logger for the file *)
  splunkl ← construct (New E logCtx)
        (λ err, ErrWrap err "error creating splunk logger");
  (* open the log file in the background with read only access *)
  (* logrus ... Debugf("Start logging"): no effect on the driver *)
  check (fifo_OpenFifo E file)
        (λ err, ErrWrapf err "error opening logger fifo: %q" file);;
  f ← alloc (OFifo file false);
  (* d.mu.Lock() *)
  a ← new_addr;
  let lf := mkLogPair a jsonl splunkl f logCtx in
  (* add the json logger, splunk logger, log file, and logCtx to the logging driver *)
  modify (set_logs <[file := lf]>);;
  modify (set_idx <[ContainerID logCtx := lf]>);;
  (* d.mu.Unlock() *)
  (* start to process the logs generated by docker *)
  go (TProcess lf);;
  mret tt.

(** The world a successful start leaves, written out. *)
Definition started (E : Env) (file : string) (logCtx : Info)
    (tj ts : LoggerType) (w : World) : logPair * World :=
  let n := next w in
  let ctx := resolve_LogPath E logCtx in
  let lf := mkLogPair (3 + n) (mkLogger tj n) (mkLogger ts (1 + n)) (2 + n) ctx in
  (lf,
   {| drv := {| logs := <[file := lf]> (logs w);
               idx := <[ContainerID logCtx := lf]> (idx w) |};
      heap := <[2 + n := OFifo file false]>
                (<[1 + n := OLogger false]> (<[n := OLogger false]> (heap w)));
      next := 4 + n;
      tasks := tasks w ++ [TProcess lf] |}).

(** ** StopLogging (lines 116-126) *)

(** lf.stream.Close() *)
Definition close_fifo (o : obj) : obj :=
  match o with
  | OFifo file _ => OFifo file true
  | _ => o
  end.

Definition StopLogging (file : string) : M unit :=
  (* d.mu.Lock() *)
  lf ← gets (λ w, logs w !! file);
  match lf with
  | Some lf =>
      modify (set_heap (alter close_fifo (stream lf)));;
      modify (set_logs (delete file))
  | None => mret tt
  end;;
  (* d.mu.Unlock() *)
  mret tt.

(** ** ReadLogs, the part that runs in the caller (lines 128-141, 176) *)

(** A pipe nothing has been written to, whose reading side takes
    [budget] bytes. *)
Definition empty_pipe (budget : option nat) : Pipe :=
  {| delivered := []; werr := None; reader_budget := budget |}.

(** lr, ok := lf.jsonl.(logger.LogReader) *)
Definition as_LogReader (l : Logger) : bool := implements_LogReader (dyn_type l).

(** r, w := io.Pipe(): one pipe, both ends at its address.  What the
    reading side will do with it is not known yet. *)
Definition io_Pipe : M loc := alloc (OPipe (empty_pipe None)).

Definition ReadLogs (info0 : Info) (config : ReadConfig) : M loc :=
  (* d.mu.Lock(); lf, exists := d.idx[info.ContainerID]; d.mu.Unlock() *)
  lf ← gets (λ w, idx w !! ContainerID info0);
  match lf with
  | None => throw (ErrNotFound (ContainerID info0))
  | Some lf =>
      rw ← io_Pipe;
      let ok := as_LogReader (jsonl lf) in
      if negb ok then throw ErrUnsupported else
      go (TBridge (jsonl lf) config rw);;
      mret rw
  end.

(** ** The goroutine of ReadLogs (lines 142-174) *)

(** *** Bytes and the length prefix *)

#[global] Instance byte_eq_decision : EqDecision byte := Byte.byte_eq_dec.

Definition byte_of_Z (z : Z) : byte :=
  default x00 (Byte.of_N (Z.to_N (z mod 256)%Z)).
Definition Z_of_byte (b : byte) : Z := Z.of_N (Byte.to_N b).

(** binary.BigEndian.PutUint32 *)
Definition PutUint32 (v : Z) : list byte :=
  [byte_of_Z (v ≫ 24)%Z; byte_of_Z (v ≫ 16)%Z; byte_of_Z (v ≫ 8)%Z; byte_of_Z v].

(** binary.BigEndian.Uint32 *)
Definition Uint32 (b0 b1 b2 b3 : byte) : Z :=
  (Z.lor (Z.lor (Z.lor (Z_of_byte b3) (Z_of_byte b2 ≪ 8)) (Z_of_byte b1 ≪ 16))
         (Z_of_byte b0 ≪ 24))%Z.

(** *** Messages and entries *)

(** A time.Time, as seconds since the Unix epoch and nanoseconds within
    the second. *)
Record Time : Type := mkTime {
  unixSec : Z;
  nsec : Z;
}.

(** int64 arithmetic wraps. *)
Definition wrap64 (z : Z) : Z := ((z + 2 ^ 63) mod 2 ^ 64 - 2 ^ 63)%Z.

(** func (t Time) UnixNano() int64 *)
Definition UnixNano (t : Time) : Z := wrap64 (unixSec t * 1000000000 + nsec t)%Z.

Module logger.
(** logger.Message, the fields the goroutine reads. *)
Record Message : Type := mkMessage {
  Line : list byte;
  Source : string;
  Timestamp : Time;
  Partial : bool;
}.
End logger.

Module logdriver.
(** logdriver.LogEntry *)
Record LogEntry : Type := mkLogEntry {
  Source : string;
  TimeNano : Z;
  Line : list byte;
  Partial : bool;
}.

Definition set_Source (v : string) (e : LogEntry) : LogEntry :=
  {| Source := v; TimeNano := TimeNano e; Line := Line e; Partial := Partial e |}.
Definition set_TimeNano (v : Z) (e : LogEntry) : LogEntry :=
  {| Source := Source e; TimeNano := v; Line := Line e; Partial := Partial e |}.
Definition set_Line (v : list byte) (e : LogEntry) : LogEntry :=
  {| Source := Source e; TimeNano := TimeNano e; Line := v; Partial := Partial e |}.
Definition set_Partial (v : bool) (e : LogEntry) : LogEntry :=
  {| Source := Source e; TimeNano := TimeNano e; Line := Line e; Partial := v |}.

(** func (m *LogEntry) Reset() { *m = LogEntry{} } *)
Definition Reset : LogEntry :=
  {| Source := ""; TimeNano := 0%Z; Line := []; Partial := false |}.
End logdriver.

(** *** The pipe *)

Definition set_delivered (f : list byte → list byte) (p : Pipe) : Pipe :=
  {| delivered := f (delivered p); werr := werr p; reader_budget := reader_budget p |}.
Definition set_werr (e : option error) (p : Pipe) : Pipe :=
  {| delivered := delivered p; werr := e; reader_budget := reader_budget p |}.
Definition set_reader_budget (k : option nat) (p : Pipe) : Pipe :=
  {| delivered := delivered p; werr := werr p; reader_budget := k |}.

(** func (w *PipeWriter) CloseWithError(err error) error: a nil error
    closes with io.EOF, and a pipe that is already closed keeps the
    error it was closed with. *)
Definition CloseWithError (err : option error) (p : Pipe) : Pipe :=
  match werr p with
  | Some _ => p
  | None => set_werr (Some (default EOF err)) p
  end.

(** func (w *PipeWriter) Close() error *)
Definition Close (p : Pipe) : Pipe := CloseWithError None p.

(** func (w *PipeWriter) Write(data []byte) (n int, err error).  The
    write hands bytes to the reading side until all are taken or the
    reading side has closed; the count [n] is not used by the caller. *)
Definition Write (data : list byte) (p : Pipe) : Pipe * option error :=
  match werr p with
  | Some _ => (p, Some ErrClosedPipe)
  | None =>
      match reader_budget p with
      | None => (set_delivered (λ d, d ++ data) p, None)
      | Some O => (p, Some ErrClosedPipe)
      | Some k =>
          if length data <=? k
          then (set_reader_budget (Some (k - length data))
                  (set_delivered (λ d, d ++ data) p), None)
          else (set_reader_budget (Some O)
                  (set_delivered (λ d, d ++ take k data) p), Some ErrClosedPipe)
      end
  end.

(** *** The feed *)

(** What one pass through the [select] receives. *)
Inductive FeedEvent : Type :=
  | RecvMsg (msg : logger.Message)   (* msg, ok := <-watcher.Msg, ok *)
  | MsgClosed                        (* msg, ok := <-watcher.Msg, !ok *)
  | RecvErr (err : option error).    (* err := <-watcher.Err, nil when closed *)

Inductive Status : Type :=
  | Waiting     (* blocked in the select, nothing more to receive *)
  | Returned.   (* the goroutine has returned *)

(** Local state of the goroutine.  The watcher is the subscription that
    lr.ReadLogs(config) returns on line 143; it starts out open. *)
Record Bridge : Type := mkBridge {
  pipe : Pipe;                 (* w *)
  watcher_closed : bool;       (* watcher.Close() has run *)
  buf : logdriver.LogEntry;
}.

Definition set_pipe (f : Pipe → Pipe) (b : Bridge) : Bridge :=
  {| pipe := f (pipe b); watcher_closed := watcher_closed b; buf := buf b |}.
Definition set_watcher_closed (c : bool) (b : Bridge) : Bridge :=
  {| pipe := pipe b; watcher_closed := c; buf := buf b |}.
Definition set_buf (f : logdriver.LogEntry → logdriver.LogEntry) (b : Bridge) : Bridge :=
  {| pipe := pipe b; watcher_closed := watcher_closed b; buf := f (buf b) |}.

Section Codec.

(** proto.Marshal and proto.Unmarshal on LogEntry. *)
Variable Marshal : logdriver.LogEntry → list byte.
Variable Unmarshal : list byte → option logdriver.LogEntry.

(** func (this *uint32Writer) WriteMsg(msg proto.Message) error, of the
    writer made by protoio.NewUint32DelimitedWriter(w, binary.BigEndian):
    the length as a uint32, then the data. *)
Definition WriteMsg (msg : logdriver.LogEntry) (p : Pipe) : Pipe * option error :=
  let data := Marshal msg in
  let length := (Z.of_nat (length data) mod 2 ^ 32)%Z in
  match Write (PutUint32 length) p with
  | (p, Some err) => (p, Some err)
  | (p, None) => Write data p
  end.

(** The bytes of one frame. *)
Definition frame (e : logdriver.LogEntry) : list byte :=
  PutUint32 (Z.of_nat (length (Marshal e)) mod 2 ^ 32)%Z ++ Marshal e.

(** The bytes of a sequence of frames. *)
Definition frames (es : list logdriver.LogEntry) : list byte :=
  concat (map frame es).

(** The [for { select { ... } }] loop. *)
Fixpoint bridge_loop (evs : list FeedEvent) (b : Bridge) : Status * Bridge :=
  match evs with
  | [] => (Waiting, b)
  | RecvMsg msg :: evs =>
      let b := set_buf (logdriver.set_Line (logger.Line msg)) b in
      let b := set_buf (logdriver.set_Partial (logger.Partial msg)) b in
      let b := set_buf (logdriver.set_TimeNano (UnixNano (logger.Timestamp msg))) b in
      let b := set_buf (logdriver.set_Source (logger.Source msg)) b in
      match WriteMsg (buf b) (pipe b) with
      | (p, Some err) =>
          (Returned, set_pipe (λ _, CloseWithError (Some err) p) b)
      | (p, None) =>
          bridge_loop evs (set_buf (λ _, logdriver.Reset) (set_pipe (λ _, p) b))
      end
  | MsgClosed :: _ => (Returned, set_pipe Close b)
  | RecvErr err :: _ => (Returned, set_pipe (CloseWithError err) b)
  end.

(** The body of the goroutine: the loop, and on return the deferred
    calls, last deferred first: watcher.Close(), then enc.Close(), which
    closes the writer it wraps. *)
Definition bridge (evs : list FeedEvent) (p : Pipe) : Status * Bridge :=
  let b := {| pipe := p; watcher_closed := false; buf := logdriver.Reset |} in
  match bridge_loop evs b with
  | (Returned, b) => (Returned, set_pipe Close (set_watcher_closed true b))
  | (Waiting, b) => (Waiting, b)
  end.

(** A launched task run against the heap: the goroutine of [ReadLogs]
    works on the pipe it was given, while the holder of the reading end
    takes [budget] bytes ([None]: all there are). *)
Definition run_bridge (evs : list FeedEvent) (budget : option nat)
    (t : Task) (w : World) : World :=
  match t with
  | TBridge _ _ rw =>
      match heap w !! rw with
      | Some (OPipe p) =>
          set_heap <[rw := OPipe (pipe (bridge evs (set_reader_budget budget p)).2)]> w
      | _ => w
      end
  | TProcess _ => w
  end.

(** Modelled from the spec: the reading side of the output stream, which
    is the host's and not in driver.go (section 6: big-endian
    length-prefixed serialized Log Entry frames, terminated by stream
    close).  [None] when the bytes end inside a frame or a frame does
    not unmarshal. *)
Fixpoint read_frames (fuel : nat) (bs : list byte) : option (list logdriver.LogEntry) :=
  match bs with
  | [] => Some []
  | b0 :: b1 :: b2 :: b3 :: rest =>
      let n := Z.to_nat (Uint32 b0 b1 b2 b3) in
      match fuel with
      | O => None
      | S fuel =>
          if n <=? length rest then
            e ← Unmarshal (take n rest);
            es ← read_frames fuel (drop n rest);
            Some (e :: es)
          else None
      end
  | _ => None
  end.

(** Every frame has at least four bytes, so the length is fuel enough. *)
Definition ReadAll (bs : list byte) : option (list logdriver.LogEntry) :=
  read_frames (length bs) bs.

End Codec.

(** ** Sequences of operations *)

Inductive op : Type :=
  | OpStart (E : Env) (file : string) (logCtx : Info)
  | OpStop (file : string)
  | OpRead (info0 : Info) (config : ReadConfig).

(** Drop the value of a call, keep whether it failed. *)
Definition void {A} (m : M A) : M unit := _ ← m; mret tt.

Definition run_op (o : op) : M unit :=
  match o with
  | OpStart E file logCtx => StartLogging E file logCtx
  | OpStop file => StopLogging file
  | OpRead info0 config => void (ReadLogs info0 config)
  end.

(** Run the operations one after the other, whatever each returns, and
    collect what they returned. *)
Fixpoint run_ops (os : list op) (w : World) : list (result unit) * World :=
  match os with
  | [] => ([], w)
  | o :: os =>
      let (r, w1) := run_op o w in
      let (rs, w2) := run_ops os w1 in
      (r :: rs, w2)
  end.

(** [file] is live after [os] with results [rs]: some start of [file]
    returned nil and no stop of [file] comes after it. *)
Definition live (os : list op) (rs : list (result unit)) (file : string) : Prop :=
  ∃ (i : nat) E logCtx,
    os !! i = Some (OpStart E file logCtx) ∧
    rs !! i = Some (Ok tt) ∧
    ∀ j, i < j → os !! j ≠ Some (OpStop file).

(** ** Well-formed worlds *)

(** Addresses in use are below [next]; the pair registered for a file
    holds the open fifo of that file. *)
Definition wf (w : World) : Prop :=
  map_Forall (λ file lf,
      heap w !! stream lf = Some (OFifo file false) ∧ addr lf < next w)
    (logs w) ∧
  map_Forall (λ _ lf, addr lf < next w) (idx w) ∧
  map_Forall (λ l _, l < next w) (heap w).

(** Every fifo on the heap that no stop has closed is the stream of the
    pair registered for its file. *)
Definition open_registered (w : World) : Prop :=
  ∀ l file, heap w !! l = Some (OFifo file false) →
    ∃ lf, logs w !! file = Some lf ∧ stream lf = l.

(** ** Concrete environments and inputs *)

(** Every callee succeeds; the json-file logger can be read back. *)
Definition env_ok : Env :=
  {| filepath_Join := λ dir name, dir +:+ "/" +:+ name;
     filepath_Dir := λ _, "/var/log/docker";
     os_MkdirAll := λ _ _, None;
     jsonfilelog_New := λ _, inr (mkLoggerType true);
     ValidateLogOpt := λ _, None;
     New := λ _, inr (mkLoggerType false);
     fifo_OpenFifo := λ _, None |}.

(** As [env_ok], but the splunk options do not validate. *)
Definition env_bad_config : Env :=
  {| filepath_Join := filepath_Join env_ok;
     filepath_Dir := filepath_Dir env_ok;
     os_MkdirAll := os_MkdirAll env_ok;
     jsonfilelog_New := jsonfilelog_New env_ok;
     ValidateLogOpt := λ _, Some (ErrExternal "splunk-url: must be set");
     New := New env_ok;
     fifo_OpenFifo := fifo_OpenFifo env_ok |}.

(** As [env_ok], but the local logger cannot be read back. *)
Definition env_no_reader : Env :=
  {| filepath_Join := filepath_Join env_ok;
     filepath_Dir := filepath_Dir env_ok;
     os_MkdirAll := os_MkdirAll env_ok;
     jsonfilelog_New := λ _, inr (mkLoggerType false);
     ValidateLogOpt := ValidateLogOpt env_ok;
     New := New env_ok;
     fifo_OpenFifo := fifo_OpenFifo env_ok |}.

Definition info_c1 : Info := mkInfo "c1" "" ∅.
Definition info_c2 : Info := mkInfo "c2" "/data/c2.log" ∅.
Definition cfg_all : ReadConfig := mkReadConfig 0 (-1) false.

(** The driver after [StartLogging("A", info_c1)] succeeded. *)
Definition world_A : World := (StartLogging env_ok "A" info_c1 boot).2.

(** The same with a json logger that cannot be read back. *)
Definition world_no_reader : World :=
  (StartLogging env_no_reader "A" info_c1 boot).2.

(** ** What the goroutine is given and what it should produce *)

(** The messages received before the first event that is not a message. *)
Fixpoint received (evs : list FeedEvent) : list logger.Message :=
  match evs with
  | RecvMsg msg :: evs => msg :: received evs
  | _ => []
  end.

(** How a feed ends. *)
Inductive Ending : Type :=
  | EndClosed                      (* watcher.Msg was closed *)
  | EndErr (err : option error).   (* watcher.Err delivered err *)

(** The first event that is not a message, if there is one. *)
Fixpoint terminal (evs : list FeedEvent) : option Ending :=
  match evs with
  | RecvMsg _ :: evs => terminal evs
  | MsgClosed :: _ => Some EndClosed
  | RecvErr err :: _ => Some (EndErr err)
  | [] => None
  end.

(** The writing side is open and the reading side takes more than [n]
    further bytes before it closes. *)
Definition accepts (p : Pipe) (n : nat) : Prop :=
  werr p = None ∧
  match reader_budget p with
  | None => True
  | Some k => n < k
  end.

(** The codec takes the entry to bytes and back, and the bytes fit the
    uint32 length prefix. *)
Definition codec_ok (Marshal : logdriver.LogEntry → list byte)
    (Unmarshal : list byte → option logdriver.LogEntry)
    (e : logdriver.LogEntry) : Prop :=
  Unmarshal (Marshal e) = Some e ∧ (Z.of_nat (length (Marshal e)) < 2 ^ 32)%Z.

(** A frame carries the fields of a message. *)
Definition same_fields (e : logdriver.LogEntry) (msg : logger.Message) : Prop :=
  logdriver.Line e = logger.Line msg ∧
  logdriver.Partial e = logger.Partial msg ∧
  logdriver.TimeNano e = UnixNano (logger.Timestamp msg) ∧
  logdriver.Source e = logger.Source msg.

(** The entry with the fields of a message. *)
Definition entry_of (msg : logger.Message) : logdriver.LogEntry :=
  {| logdriver.Source := logger.Source msg;
     logdriver.TimeNano := UnixNano (logger.Timestamp msg);
     logdriver.Line := logger.Line msg;
     logdriver.Partial := logger.Partial msg |}.

(** ** The protobuf wire format of LogEntry

    The generated code of entry.proto (string source = 1; int64 time_nano
    = 2; bytes line = 3; bool partial = 4), to have one codec at hand. *)

Module proto.

(** encodeVarintEntry, on a uint64. *)
Fixpoint encodeVarint_from (fuel : nat) (v : Z) : list byte :=
  match fuel with
  | O => [byte_of_Z v]
  | S fuel =>
      if (v <? 128)%Z then [byte_of_Z v]
      else byte_of_Z (Z.lor (Z.land v 127) 128) :: encodeVarint_from fuel (v ≫ 7)%Z
  end.
Definition encodeVarint (v : Z) : list byte := encodeVarint_from 9 v.

(** The varint loop of Unmarshal: error when shift reaches 64 or the
    bytes run out. *)
Fixpoint decodeVarint_from (fuel : nat) (shift : Z) (bs : list byte)
    : option (Z * list byte) :=
  match fuel, bs with
  | S fuel, b :: bs =>
      let v := ((Z.land (Z_of_byte b) 127 ≪ shift) mod 2 ^ 64)%Z in
      if (Z_of_byte b <? 128)%Z then Some (v, bs)
      else '(v', bs') ← decodeVarint_from fuel (shift + 7)%Z bs;
           Some (Z.lor v v', bs')
  | _, _ => None
  end.
Definition decodeVarint (bs : list byte) : option (Z * list byte) :=
  decodeVarint_from 10 0%Z bs.

Definition length_delimited (tag : byte) (data : list byte) : list byte :=
  if decide (length data = 0) then []
  else tag :: encodeVarint (Z.of_nat (length data)) ++ data.

(** func (m *LogEntry) Marshal() *)
Definition Marshal (m : logdriver.LogEntry) : list byte :=
  length_delimited x0a (String.list_byte_of_string (logdriver.Source m)) ++
  (if decide (logdriver.TimeNano m = 0%Z) then []
   else x10 :: encodeVarint (logdriver.TimeNano m mod 2 ^ 64)%Z) ++
  length_delimited x1a (logdriver.Line m) ++
  (if logdriver.Partial m then [x20; x01] else []).

(** func (m *LogEntry) Unmarshal(dAtA []byte).  Fields other than 1-4,
    which the generated code skips over, are refused here. *)
Fixpoint Unmarshal_from (fuel : nat) (bs : list byte) (m : logdriver.LogEntry)
    : option logdriver.LogEntry :=
  match bs, fuel with
  | [], _ => Some m
  | _, O => None
  | _, S fuel =>
      '(wire, bs) ← decodeVarint bs;
      let fieldNum := (wire ≫ 3)%Z in
      let wireType := Z.land wire 7 in
      if decide (fieldNum = 1%Z ∧ wireType = 2%Z) then
        '(n, bs) ← decodeVarint bs;
        if decide (Z.to_nat n ≤ length bs) then
          Unmarshal_from fuel (drop (Z.to_nat n) bs)
            (logdriver.set_Source (String.string_of_list_byte (take (Z.to_nat n) bs)) m)
        else None
      else if decide (fieldNum = 2%Z ∧ wireType = 0%Z) then
        '(v, bs) ← decodeVarint bs;
        Unmarshal_from fuel bs (logdriver.set_TimeNano (wrap64 v) m)
      else if decide (fieldNum = 3%Z ∧ wireType = 2%Z) then
        '(n, bs) ← decodeVarint bs;
        if decide (Z.to_nat n ≤ length bs) then
          Unmarshal_from fuel (drop (Z.to_nat n) bs)
            (logdriver.set_Line (take (Z.to_nat n) bs) m)
        else None
      else if decide (fieldNum = 4%Z ∧ wireType = 0%Z) then
        '(v, bs) ← decodeVarint bs;
        Unmarshal_from fuel bs (logdriver.set_Partial (bool_decide (v ≠ 0%Z)) m)
      else None
  end.
Definition Unmarshal (bs : list byte) : option logdriver.LogEntry :=
  Unmarshal_from (length bs) bs logdriver.Reset.

End proto.

(** ** Concrete feeds *)

Definition msg_hello : logger.Message :=
  {| logger.Line := [x68; x65; x6c; x6c; x6f];
     logger.Source := "stdout";
     logger.Timestamp := {| unixSec := 1525132800; nsec := 5 |};
     logger.Partial := false |}.

Definition msg_partial : logger.Message :=
  {| logger.Line := [x77; x6f];
     logger.Source := "stderr";
     logger.Timestamp := {| unixSec := 1525132801; nsec := 0 |};
     logger.Partial := true |}.

Definition feed_clean : list FeedEvent :=
  [RecvMsg msg_hello; RecvMsg msg_partial; MsgClosed].

Definition feed_error : list FeedEvent :=
  [RecvMsg msg_hello; RecvErr (Some (ErrExternal "error reading log file"));
   RecvMsg msg_partial].

(** The operations of the registry walk-through: start "A", stop it
    twice, start it again, and a start of "B" that fails. *)
Definition ops_demo : list op :=
  [OpStart env_ok "A" info_c1; OpStop "A"; OpStop "A";
   OpStart env_ok "A" info_c1; OpStart env_bad_config "B" info_c1].

(** ** What the two maps hold *)

(** An index entry is filed under the container id of its pair, and the
    loggers of its pair are open; a registered pair has its source
    indexed; the address of a pair is the one after its fifo's. *)
Definition indexed (w : World) : Prop :=
  (∀ c lf, idx w !! c = Some lf →
     ContainerID (info lf) = c ∧
     heap w !! data (jsonl lf) = Some (OLogger false) ∧
     heap w !! data (splunkl lf) = Some (OLogger false)) ∧
  (∀ f lf, logs w !! f = Some lf →
     is_Some (idx w !! ContainerID (info lf)) ∧ addr lf = S (stream lf)).

(** ** The three steps of StartLogging

    The mutex is released on line 68 and taken again on line 102, so a
    start is three steps, and steps of other calls may come in between. *)

(** Lines 62-68, under the lock: the duplicate check. *)
Definition StartLogging_check (file : string) : M unit :=
  lf0 ← gets (λ w, logs w !! file);
  if lf0 is Some _ then throw (ErrAlreadyExists file) else mret tt.

(** Lines 71-100, without the lock: the loggers, the fifo and the log
    context that line 103 puts in the pair. *)
Definition StartLogging_prepare (E : Env) (file : string) (logCtx : Info)
    : M (Logger * Logger * loc * Info) :=
  let logCtx := resolve_LogPath E logCtx in
  check (os_MkdirAll E (filepath_Dir E (LogPath logCtx)) 493%Z (* 0755 *))
        (λ err, ErrWrap err "error setting up logger dir");;
  jsonl ← construct (jsonfilelog_New E logCtx)
        (λ err, ErrWrap err "error creating jsonfile logger");
  check (ValidateLogOpt E (Config logCtx))
        (λ err, ErrWrapf err "error options logger splunk: %q" file);;
  splunkl ← construct (New E logCtx)
        (λ err, ErrWrap err "error creating splunk logger");
  check (fifo_OpenFifo E file)
        (λ err, ErrWrapf err "error opening logger fifo: %q" file);;
  f ← alloc (OFifo file false);
  mret (jsonl, splunkl, f, logCtx).

(** Lines 102-113, under the lock again: the registration, and the
    launch of the message processor. *)
Definition StartLogging_register (file : string)
    (parts : Logger * Logger * loc * Info) : M unit :=
  let '(jsonl, splunkl, f, logCtx) := parts in
  a ← new_addr;
  let lf := mkLogPair a jsonl splunkl f logCtx in
  modify (set_logs <[file := lf]>);;
  modify (set_idx <[ContainerID logCtx := lf]>);;
  go (TProcess lf);;
  mret tt.

(** What a call does once it has passed the check. *)
Definition StartLogging_finish (E : Env) (file : string) (logCtx : Info) : M unit :=
  parts ← StartLogging_prepare E file logCtx;
  StartLogging_register file parts.

(** Two starts of the same file, the second passing its check before the
    first has registered. *)
Definition racing_starts (E1 E2 : Env) (file : string) (logCtx1 logCtx2 : Info)
    : M unit :=
  StartLogging_check file;;
  StartLogging_check file;;
  StartLogging_finish E1 file logCtx1;;
  StartLogging_finish E2 file logCtx2.

(** The five delegated steps of a start succeed, with these two loggers. *)
Definition steps_succeed (E : Env) (file : string) (logCtx : Info)
    (tj ts : LoggerType) : Prop :=
  os_MkdirAll E (filepath_Dir E (LogPath (resolve_LogPath E logCtx))) 493%Z = None ∧
  jsonfilelog_New E (resolve_LogPath E logCtx) = inr tj ∧
  ValidateLogOpt E (Config (resolve_LogPath E logCtx)) = None ∧
  New E (resolve_LogPath E logCtx) = inr ts ∧
  fifo_OpenFifo E file = None.

(** * Properties *)

(** ** Running the monad *)

Ltac run :=
  unfold void, check, construct, io_Pipe, alloc, new_addr, go, modify, gets, throw;
  unfold mbind, M_bind, mret, M_ret; simpl.

Lemma ContainerID_resolve E logCtx :
  ContainerID (resolve_LogPath E logCtx) = ContainerID logCtx.
Proof. unfold resolve_LogPath. by case_decide. Qed.

(** Every way a start of an unregistered file can end. *)
Lemma StartLogging_cases E file logCtx (w : World) :
  logs w !! file = None →
  (∃ tj ts,
      jsonfilelog_New E (resolve_LogPath E logCtx) = inr tj ∧
      New E (resolve_LogPath E logCtx) = inr ts ∧
      StartLogging E file logCtx w =
        (Ok tt, (started E file logCtx tj ts w).2)) ∨
  (∃ e w',
      StartLogging E file logCtx w = (Fail e, w') ∧
      logs w' = logs w ∧ idx w' = idx w ∧ tasks w' = tasks w ∧
      next w ≤ next w' ∧
      ∀ l, heap w' !! l = heap w !! l ∨
           (next w ≤ l < next w' ∧ heap w' !! l = Some (OLogger false))).
Proof.
  intros Hfile. unfold StartLogging. run. rewrite Hfile.
  destruct (os_MkdirAll E _ _) as [e1|]; simpl.
  { right. do 2 eexists. split; [reflexivity|]. repeat split; auto. }
  destruct (jsonfilelog_New E _) as [e2|tj]; simpl.
  { right. do 2 eexists. split; [reflexivity|]. repeat split; auto. }
  destruct (ValidateLogOpt E _) as [e3|]; simpl.
  { right. do 2 eexists. split; [reflexivity|]. simpl. repeat split; auto.
    intros l. destruct (decide (l = next w)) as [->|Hne].
    - right. rewrite lookup_insert_eq. split; [lia|done].
    - left. by rewrite lookup_insert_ne. }
  destruct (New E _) as [e4|ts]; simpl.
  { right. do 2 eexists. split; [reflexivity|]. simpl. repeat split; auto.
    intros l. destruct (decide (l = next w)) as [->|Hne].
    - right. rewrite lookup_insert_eq. split; [lia|done].
    - left. by rewrite lookup_insert_ne. }
  destruct (fifo_OpenFifo E _) as [e5|]; simpl.
  { right. do 2 eexists. split; [reflexivity|]. simpl. repeat split; auto.
    intros l. destruct (decide (l = S (next w))) as [->|Hne1].
    - right. rewrite lookup_insert_eq. split; [lia|done].
    - rewrite lookup_insert_ne by done.
      destruct (decide (l = next w)) as [->|Hne].
      + right. rewrite lookup_insert_eq. split; [lia|done].
      + left. by rewrite lookup_insert_ne. }
  left. exists tj, ts. repeat split.
  unfold started. simpl. by rewrite ContainerID_resolve.
Qed.

(** A start of a registered file. *)
Lemma StartLogging_Some E file logCtx lf (w : World) :
  logs w !! file = Some lf →
  StartLogging E file logCtx w = (Fail (ErrAlreadyExists file), w).
Proof. intros Hlf. unfold StartLogging. run. by rewrite Hlf. Qed.

Lemma wf_boot : wf boot.
Proof. unfold wf; split_and!; intros ? ?; simpl; by rewrite lookup_empty. Qed.

Lemma wf_started E file logCtx tj ts (w : World) :
  wf w → wf (started E file logCtx tj ts w).2.
Proof.
  intros (Hl & Hi & Hh). unfold wf; split_and!; simpl.
  - intros f lf. rewrite lookup_insert. case_decide; simplify_eq.
    + intros [= <-]. simpl. rewrite lookup_insert_eq. split; [done|lia].
    + intros Hf. destruct (Hl _ _ Hf) as [Hs Ha]. simpl in *.
      pose proof (Hh _ _ Hs) as Hlt. simpl in Hlt.
      rewrite !lookup_insert_ne by lia. split; [done|lia].
  - intros c lf. rewrite lookup_insert. case_decide; simplify_eq.
    + intros [= <-]. simpl. lia.
    + intros Hc. specialize (Hi _ _ Hc). simpl in *. lia.
  - intros l o. rewrite !lookup_insert. repeat case_decide; simplify_eq; try lia.
    intros Ho. specialize (Hh _ _ Ho). simpl in *. lia.
Qed.

Lemma wf_StartLogging E file logCtx (w : World) :
  wf w → wf (StartLogging E file logCtx w).2.
Proof.
  intros Hwf. destruct (logs w !! file) as [lf|] eqn:Hfile.
  { by rewrite (StartLogging_Some _ _ _ lf). }
  destruct (StartLogging_cases E file logCtx w Hfile)
    as [(tj & ts & _ & _ & ->)|(e & w' & -> & HL & HI & _ & Hn & Hheap)].
  { by apply wf_started. }
  destruct Hwf as (Hl & Hi & Hh). unfold wf; split_and!; simpl.
  - rewrite HL. intros f lf Hf. destruct (Hl _ _ Hf) as [Hs Ha]. simpl in *.
    split; [|lia]. destruct (Hheap (stream lf)) as [Heq|[Hr _]]; [by rewrite Heq|].
    specialize (Hh _ _ Hs). simpl in Hh. lia.
  - rewrite HI. intros c lf Hc. specialize (Hi _ _ Hc). simpl in *. lia.
  - intros l o Ho. destruct (Hheap l) as [Heq|[Hr _]]; [|lia].
    rewrite Heq in Ho. specialize (Hh _ _ Ho). simpl in *. lia.
Qed.

(** What a stop does, with and without a registered pair. *)
Lemma StopLogging_Some file lf (w : World) :
  logs w !! file = Some lf →
  StopLogging file w =
    (Ok tt, set_logs (delete file) (set_heap (alter close_fifo (stream lf)) w)).
Proof. intros H. unfold StopLogging. run. by rewrite H. Qed.

Lemma StopLogging_None file (w : World) :
  logs w !! file = None → StopLogging file w = (Ok tt, w).
Proof. intros H. unfold StopLogging. run. by rewrite H. Qed.

Lemma wf_StopLogging file (w : World) : wf w → wf (StopLogging file w).2.
Proof.
  intros Hwf. destruct (logs w !! file) as [lf|] eqn:Hfile.
  2: { by rewrite StopLogging_None. }
  rewrite (StopLogging_Some _ lf) by done. destruct Hwf as (Hl & Hi & Hh).
  destruct (Hl _ _ Hfile) as [Hs _]. simpl in Hs.
  unfold wf; split_and!; simpl.
  - intros f lf'. rewrite lookup_delete. case_decide; [done|].
    intros Hf. destruct (Hl _ _ Hf) as [Hs' Ha]. simpl in *. split; [|done].
    rewrite lookup_alter_ne; [done|]. intros Heq. rewrite Heq in Hs.
    congruence.
  - done.
  - intros l o. rewrite lookup_alter. case_decide; simplify_eq.
    + destruct (heap w !! stream lf) eqn:Ho; [|done]. intros _. by apply (Hh _ _ Ho).
    + apply Hh.
Qed.

(** Every way a read can end. *)
Lemma ReadLogs_cases info0 config (w : World) :
  match idx w !! ContainerID info0 with
  | None =>
      ReadLogs info0 config w = (Fail (ErrNotFound (ContainerID info0)), w)
  | Some lf =>
      let w1 := set_next S (set_heap <[next w := OPipe (empty_pipe None)]> w) in
      if as_LogReader (jsonl lf)
      then ReadLogs info0 config w =
             (Ok (next w), set_tasks (λ ts, ts ++ [TBridge (jsonl lf) config (next w)]) w1)
      else ReadLogs info0 config w = (Fail ErrUnsupported, w1)
  end.
Proof.
  unfold ReadLogs. run. destruct (idx w !! ContainerID info0) as [lf|]; [|done].
  simpl. by destruct (as_LogReader (jsonl lf)).
Qed.

Lemma ReadLogs_registry info0 config (w : World) :
  logs (ReadLogs info0 config w).2 = logs w ∧
  idx (ReadLogs info0 config w).2 = idx w.
Proof.
  pose proof (ReadLogs_cases info0 config w) as H.
  destruct (idx w !! ContainerID info0) as [lf|]; [|by rewrite H].
  simpl in H. by destruct (as_LogReader (jsonl lf)); rewrite H.
Qed.

Lemma wf_ReadLogs info0 config (w : World) :
  wf w → wf (ReadLogs info0 config w).2.
Proof.
  intros Hwf. pose proof (ReadLogs_cases info0 config w) as H.
  destruct (idx w !! ContainerID info0) as [lf|]; [|by rewrite H].
  assert (wf (set_next S (set_heap <[next w := OPipe (empty_pipe None)]> w))) as Hwf1.
  { destruct Hwf as (Hl & Hi & Hh). unfold wf; split_and!; simpl.
    - intros f lf' Hf. destruct (Hl _ _ Hf) as [Hs Ha]. simpl in *.
      specialize (Hh _ _ Hs). simpl in Hh.
      rewrite lookup_insert_ne by lia. split; [done|lia].
    - intros c lf' Hc. specialize (Hi _ _ Hc). simpl in *. lia.
    - intros l o. rewrite lookup_insert. case_decide; simplify_eq; [lia|].
      intros Ho. specialize (Hh _ _ Ho). simpl in *. lia. }
  simpl in H. destruct (as_LogReader (jsonl lf)); rewrite H; [|done].
  destruct Hwf1 as (Hl & Hi & Hh). by unfold wf; split_and!.
Qed.

Lemma wf_run_op o (w : World) : wf w → wf (run_op o w).2.
Proof.
  destruct o as [E file logCtx|file|info0 config]; simpl.
  - apply wf_StartLogging.
  - apply wf_StopLogging.
  - intros Hwf. apply (wf_ReadLogs info0 config) in Hwf.
    unfold void. run. by destruct (ReadLogs info0 config w) as [[r|e] w'].
Qed.

Lemma wf_run_ops os (w : World) : wf w → wf (run_ops os w).2.
Proof.
  revert w. induction os as [|o os IH]; intros w Hwf; simpl; [done|].
  pose proof (wf_run_op o w Hwf) as H1. destruct (run_op o w) as [r w1].
  specialize (IH w1 H1). by destruct (run_ops os w1).
Qed.

Lemma open_registered_run_op o (w : World) :
  wf w → open_registered w → open_registered (run_op o w).2.
Proof.
  intros (Hl & Hi & Hh) Hopen.
  destruct o as [E file logCtx|file|info0 config]; simpl.
  - destruct (logs w !! file) as [lf|] eqn:Hfile.
    { by rewrite (StartLogging_Some _ _ _ lf). }
    destruct (StartLogging_cases E file logCtx w Hfile)
      as [(tj & ts & _ & _ & ->)|(e & w' & -> & HL & _ & _ & _ & Hheap)]; simpl.
    + intros l f Hf. simpl in *.
      destruct (decide (l = 2 + next w)) as [->|Hn2].
      { rewrite lookup_insert_eq in Hf. simplify_eq.
        eexists. by rewrite lookup_insert_eq. }
      rewrite lookup_insert_ne in Hf by done.
      destruct (decide (l = 1 + next w)) as [->|Hn1].
      { by rewrite lookup_insert_eq in Hf. }
      rewrite lookup_insert_ne in Hf by done.
      destruct (decide (l = next w)) as [->|Hn0].
      { by rewrite lookup_insert_eq in Hf. }
      rewrite lookup_insert_ne in Hf by done.
      destruct (Hopen _ _ Hf) as (lf' & Hlf' & <-).
      exists lf'. split; [|done]. rewrite lookup_insert_ne; [done|].
      intros <-. congruence.
    + intros l f Hf. rewrite HL. apply Hopen.
      destruct (Hheap l) as [Heq|[_ Heq]]; by rewrite Heq in Hf.
  - destruct (logs w !! file) as [lf|] eqn:Hfile.
    2: { by rewrite StopLogging_None. }
    rewrite (StopLogging_Some _ lf) by done.
    destruct (Hl _ _ Hfile) as [Hs _]. simpl in Hs.
    intros l f. simpl. rewrite lookup_alter. case_decide; simplify_eq.
    + by rewrite Hs.
    + intros Hf. destruct (Hopen _ _ Hf) as (lf' & Hlf' & <-).
      exists lf'. split; [|done]. rewrite lookup_delete_ne; [done|].
      intros <-. by simplify_eq.
  - pose proof (ReadLogs_cases info0 config w) as H.
    unfold void. run.
    destruct (idx w !! ContainerID info0) as [lf|]; [|by rewrite H].
    simpl in H. destruct (as_LogReader (jsonl lf)); rewrite H; simpl;
      intros l f; simpl; rewrite lookup_insert; case_decide; simplify_eq;
      try done; apply Hopen.
Qed.

Lemma open_registered_run_ops os : ∀ w : World,
  wf w → open_registered w → open_registered (run_ops os w).2.
Proof.
  induction os as [|o os IH]; intros w Hwf Hopen; simpl; [done|].
  pose proof (wf_run_op o w Hwf) as H1.
  pose proof (open_registered_run_op o w Hwf Hopen) as H2.
  destruct (run_op o w) as [r w1]. specialize (IH w1 H1 H2).
  by destruct (run_ops os w1).
Qed.

(** ** Duplicate starts *)

(** C1. For every stream identifier already present in the stream-keyed
    map, a call to StartLogging with that identifier fails with the
    already-exists error, and the world it returns is the world it was
    given: both registry maps (and everything else) are unchanged. *)
Theorem StartLogging_already_exists E file logCtx (w : World) :
  is_Some (logs w !! file) →
  StartLogging E file logCtx w = (Fail (ErrAlreadyExists file), w).
Proof.
  intros [lf Hlf]. by apply (StartLogging_Some _ _ _ lf).
Qed.

(** A second start without a stop in between fails. *)
Lemma StartLogging_twice E E' file logCtx logCtx' (w : World) (w1 : World) :
  StartLogging E file logCtx w = (Ok tt, w1) →
  StartLogging E' file logCtx' w1 = (Fail (ErrAlreadyExists file), w1).
Proof.
  intros Hrun. destruct (logs w !! file) as [lf|] eqn:Hfile.
  { by rewrite (StartLogging_Some _ _ _ lf) in Hrun. }
  destruct (StartLogging_cases E file logCtx w Hfile)
    as [(tj & ts & _ & _ & Heq)|(e0 & w0 & Heq & _)];
    rewrite Heq in Hrun; [|done].
  simplify_eq. eapply StartLogging_Some. simpl. apply lookup_insert_eq.
Qed.

Lemma StartLogging_already_exists_witness :
  is_Some (logs world_A !! "A") ∧
  StartLogging env_ok "A" info_c1 world_A = (Fail (ErrAlreadyExists "A"), world_A).
Proof.
  assert (is_Some (logs world_A !! "A")) as H.
  { vm_compute. eauto. }
  split; [exact H|]. exact (StartLogging_already_exists env_ok "A" info_c1 world_A H).
Defined.

(** ** Stops *)

(** C6. For every stream identifier and every state of the driver,
    StopLogging returns nil; a second call on the same identifier returns
    nil as well and changes nothing more. *)
Theorem StopLogging_total_idempotent file (w : World) :
  (StopLogging file w).1 = Ok tt ∧
  StopLogging file (StopLogging file w).2 = (Ok tt, (StopLogging file w).2).
Proof.
  destruct (logs w !! file) as [lf|] eqn:Hfile.
  - rewrite (StopLogging_Some _ lf) by done. split; [done|].
    apply StopLogging_None. simpl. apply lookup_delete_eq.
  - rewrite StopLogging_None by done. split; [done|]. by apply StopLogging_None.
Qed.

(** C4 as amended. StopLogging never writes the source-keyed map: the
    entry of the stopped pair's source is left in place, superseded or
    not. *)
Theorem StopLogging_keeps_idx file (w : World) :
  idx (StopLogging file w).2 = idx w.
Proof.
  destruct (logs w !! file) as [lf|] eqn:Hfile.
  - by rewrite (StopLogging_Some _ lf).
  - by rewrite StopLogging_None.
Qed.

(** C4 as stated fails: "A" is registered, its pair is the one indexed
    under its source "c1", and after StopLogging("A") the index still
    holds that pair. *)
Lemma StopLogging_clears_idx_counterexample :
  ∃ lf,
    logs world_A !! "A" = Some lf ∧
    ContainerID (info lf) = "c1" ∧
    idx world_A !! "c1" = Some lf ∧
    idx (StopLogging "A" world_A).2 !! "c1" = Some lf.
Proof. eexists. split_and!; vm_compute; reflexivity. Qed.

(** ** Reads *)

(** C10. ReadLogs leaves both registry maps as they were, whether it
    returns a stream or an error. *)
Theorem ReadLogs_keeps_registry info0 config (w : World) :
  logs (ReadLogs info0 config w).2 = logs w ∧
  idx (ReadLogs info0 config w).2 = idx w.
Proof.
  unfold ReadLogs. run.
  destruct (idx w !! ContainerID info0) as [lf|]; [|done].
  simpl. by destruct (as_LogReader (jsonl lf)).
Qed.

(** C7. ReadLogs fails with the not-found error when the source identity
    is absent from the source-keyed map; fails with the unsupported error
    when the pair's json logger is not a LogReader; and otherwise returns
    at once the reading end of a fresh pipe to which nothing has been
    written and which is still open, having only launched the goroutine
    that will write to it. *)
Theorem ReadLogs_outcomes info0 config (w : World) :
  match idx w !! ContainerID info0 with
  | None =>
      ReadLogs info0 config w = (Fail (ErrNotFound (ContainerID info0)), w)
  | Some lf =>
      if as_LogReader (jsonl lf)
      then ∃ r w',
        ReadLogs info0 config w = (Ok r, w') ∧
        heap w' !! r = Some (OPipe (empty_pipe None)) ∧
        delivered (empty_pipe None) = [] ∧
        werr (empty_pipe None) = None ∧
        tasks w' = tasks w ++ [TBridge (jsonl lf) config r]
      else (ReadLogs info0 config w).1 = Fail ErrUnsupported
  end.
Proof.
  pose proof (ReadLogs_cases info0 config w) as H.
  destruct (idx w !! ContainerID info0) as [lf|]; [|done].
  simpl in H. destruct (as_LogReader (jsonl lf)); [|by rewrite H].
  do 2 eexists. split; [exact H|]. simpl. by rewrite lookup_insert_eq.
Qed.

(** The three outcomes on concrete drivers. *)
Example ReadLogs_unknown_source :
  ReadLogs info_c2 cfg_all world_A = (Fail (ErrNotFound "c2"), world_A).
Proof. reflexivity. Qed.

Example ReadLogs_no_reader :
  (ReadLogs info_c1 cfg_all world_no_reader).1 = Fail ErrUnsupported.
Proof. reflexivity. Qed.

Example ReadLogs_handle :
  (ReadLogs info_c1 cfg_all world_A).1 = Ok 4 ∧
  heap (ReadLogs info_c1 cfg_all world_A).2 !! 4 = Some (OPipe (empty_pipe None)) ∧
  last (tasks (ReadLogs info_c1 cfg_all world_A).2) =
    Some (TBridge (mkLogger (mkLoggerType true) 0) cfg_all 4).
Proof. split_and!; reflexivity. Qed.

(** After a stop the source can still be read back: the index keeps the
    pair. *)
Example ReadLogs_after_stop :
  (ReadLogs info_c1 cfg_all (StopLogging "A" world_A).2).1 = Ok 4.
Proof. reflexivity. Qed.

(** ** Failed starts *)

(** C5 as amended. When StartLogging fails after the duplicate check,
    neither registry map is modified and no goroutine is launched; nothing
    is released: every heap cell is as before or is a logger constructed
    by this call, still open. *)
Theorem StartLogging_failure_frame E file logCtx (w : World) e (w' : World) :
  logs w !! file = None →
  StartLogging E file logCtx w = (Fail e, w') →
  logs w' = logs w ∧ idx w' = idx w ∧ tasks w' = tasks w ∧
  ∀ l, heap w' !! l = heap w !! l ∨
       (next w ≤ l < next w' ∧ heap w' !! l = Some (OLogger false)).
Proof.
  intros Hfile Hrun.
  destruct (StartLogging_cases E file logCtx w Hfile)
    as [(tj & ts & _ & _ & Heq)|(e0 & w0 & Heq & HL & HI & HT & _ & Hheap)];
    rewrite Heq in Hrun; [done|].
  by simplify_eq.
Qed.

Lemma StartLogging_failure_frame_witness :
  logs boot !! "A" = None ∧
  logs (StartLogging env_bad_config "A" info_c1 boot).2 = logs boot ∧
  idx (StartLogging env_bad_config "A" info_c1 boot).2 = idx boot ∧
  tasks (StartLogging env_bad_config "A" info_c1 boot).2 = tasks boot ∧
  ∀ l, heap (StartLogging env_bad_config "A" info_c1 boot).2 !! l =
         heap boot !! l ∨
       (next boot ≤ l < next (StartLogging env_bad_config "A" info_c1 boot).2 ∧
        heap (StartLogging env_bad_config "A" info_c1 boot).2 !! l =
          Some (OLogger false)).
Proof.
  split; [reflexivity|].
  exact (StartLogging_failure_frame env_bad_config "A" info_c1 boot
           (ErrWrapf (ErrExternal "splunk-url: must be set")
                     "error options logger splunk: %q" "A")
           _ eq_refl eq_refl).
Defined.

(** C5 as stated fails: the options do not validate, StartLogging
    returns the error, and the json logger it had constructed at address 0
    is on the heap, not closed. *)
Lemma StartLogging_releases_counterexample :
  logs boot !! "A" = None ∧
  (StartLogging env_bad_config "A" info_c1 boot).1 =
    Fail (ErrWrapf (ErrExternal "splunk-url: must be set")
                   "error options logger splunk: %q" "A") ∧
  heap boot !! 0 = None ∧
  heap (StartLogging env_bad_config "A" info_c1 boot).2 !! 0 =
    Some (OLogger false).
Proof. split_and!; vm_compute; reflexivity. Qed.

(** ** Successful starts *)

Lemma StartLogging_Ok_inv E file logCtx (w : World) (w' : World) :
  StartLogging E file logCtx w = (Ok tt, w') →
  logs w !! file = None ∧
  ∃ tj ts, w' = (started E file logCtx tj ts w).2.
Proof.
  intros Hrun. destruct (logs w !! file) as [lf|] eqn:Hfile.
  { by rewrite (StartLogging_Some _ _ _ lf) in Hrun. }
  split; [done|].
  destruct (StartLogging_cases E file logCtx w Hfile)
    as [(tj & ts & _ & _ & Heq)|(e0 & w0 & Heq & _)];
    rewrite Heq in Hrun; [|done].
  exists tj, ts. by simplify_eq.
Qed.

(** C9. When a second StartLogging succeeds under a different stream
    identifier but the same source identity while the first pair is still
    registered, the source-keyed map afterwards holds the new pair for
    that source (the old map with that one entry overwritten), the new
    pair is not the first one, and the first pair is still in the
    stream-keyed map. *)
Theorem StartLogging_supersedes_idx E file1 file2 logCtx lf1 (w : World) (w' : World) :
  wf w →
  logs w !! file1 = Some lf1 →
  ContainerID (info lf1) = ContainerID logCtx →
  file2 ≠ file1 →
  StartLogging E file2 logCtx w = (Ok tt, w') →
  ∃ lf2,
    logs w' !! file2 = Some lf2 ∧
    idx w' !! ContainerID logCtx = Some lf2 ∧
    idx w' = <[ContainerID logCtx := lf2]> (idx w) ∧
    addr lf2 ≠ addr lf1 ∧
    ContainerID (info lf2) = ContainerID (info lf1) ∧
    logs w' !! file1 = Some lf1.
Proof.
  intros (Hl & _ & _) H1 Hsrc Hne Hrun.
  apply StartLogging_Ok_inv in Hrun as (_ & tj & ts & ->).
  eexists. simpl. split_and!.
  - apply lookup_insert_eq.
  - apply lookup_insert_eq.
  - reflexivity.
  - simpl. destruct (Hl _ _ H1) as [_ Ha]. simpl in Ha. lia.
  - simpl. by rewrite ContainerID_resolve.
  - by rewrite lookup_insert_ne.
Qed.

(** "B" is started for the source of "A" while "A" is registered. *)
Lemma StartLogging_supersedes_idx_witness :
  ∃ lf1 lf2 w',
    logs world_A !! "A" = Some lf1 ∧
    StartLogging env_ok "B" info_c1 world_A = (Ok tt, w') ∧
    logs w' !! "B" = Some lf2 ∧
    idx w' !! "c1" = Some lf2 ∧
    idx w' = <[ContainerID info_c1 := lf2]> (idx world_A) ∧
    addr lf2 ≠ addr lf1 ∧
    ContainerID (info lf2) = ContainerID (info lf1) ∧
    logs w' !! "A" = Some lf1.
Proof.
  assert (wf world_A) as Hwf by (apply wf_StartLogging, wf_boot).
  destruct (world_A.(logs) !! "A") as [lf1|] eqn:HA; [|by vm_compute in HA].
  assert (ContainerID (info lf1) = ContainerID info_c1) as Hsrc.
  { vm_compute in HA. by simplify_eq. }
  assert ("B" ≠ "A") as Hne by done.
  destruct (StartLogging env_ok "B" info_c1 world_A) as [r w'] eqn:HB.
  assert (r = Ok tt) as -> by (vm_compute in HB; by simplify_eq).
  destruct (StartLogging_supersedes_idx env_ok "A" "B" info_c1 lf1 world_A w'
              Hwf HA Hsrc Hne HB) as (lf2 & H).
  exists lf1, lf2, w'. by split_and!; try apply H.
Defined.

(** ** The registry over sequences of operations *)

(** What one operation does to the presence of [file] in [logs]. *)
Lemma run_op_logs o (w : World) r (w1 : World) file :
  run_op o w = (r, w1) →
  is_Some (logs w1 !! file) ↔
    ((∃ E logCtx, o = OpStart E file logCtx) ∧ r = Ok tt) ∨
    (is_Some (logs w !! file) ∧ o ≠ OpStop file).
Proof.
  destruct o as [E f logCtx|f|info0 config]; simpl; intros Hrun.
  - destruct (logs w !! f) as [lf|] eqn:Hf.
    { rewrite (StartLogging_Some _ _ _ lf) in Hrun by done. simplify_eq.
      split; [by right|]. intros [[_ ?]|[? _]]; done. }
    destruct (StartLogging_cases E f logCtx w Hf)
      as [(tj & ts & _ & _ & Heq)|(e0 & w0 & Heq & HL & _)];
      rewrite Heq in Hrun; simplify_eq; simpl.
    + rewrite lookup_insert. case_decide; simplify_eq.
      * split; [|by eauto]. intros _. left. eauto.
      * split; [by right|]. intros [[(? & ? & ?) _]|[? _]]; by simplify_eq.
    + rewrite HL. split; [by right|].
      intros [[_ ?]|[? _]]; done.
  - destruct (logs w !! f) as [lf|] eqn:Hf.
    + rewrite (StopLogging_Some _ lf) in Hrun by done. simplify_eq. simpl.
      rewrite lookup_delete. case_decide; simplify_eq.
      * split; [by intros [? ?]|]. intros [[(? & ? & ?) _]|[_ ?]]; done.
      * split; [intros ?; right; split; [done|congruence]|].
        intros [[(? & ? & ?) _]|[? _]]; done.
    + rewrite StopLogging_None in Hrun by done. simplify_eq.
      split.
      * intros Hs. right. split; [done|]. intros [= ->].
        rewrite Hf in Hs. by destruct Hs.
      * intros [[(? & ? & ?) _]|[? _]]; done.
  - destruct (ReadLogs_registry info0 config w) as [HL _].
    unfold void in Hrun. revert Hrun. run.
    destruct (ReadLogs info0 config w) as [[x|e] w2]; simpl in *;
      intros ?; simplify_eq; rewrite HL;
      (split; [by right|]); intros [[(? & ? & ?) _]|[? _]]; done.
Qed.

(** After a sequence of operations, a file is registered exactly when it
    is live in the sequence, or was registered at the outset and never
    stopped. *)
Lemma run_ops_logs os : ∀ (w : World) rs (w' : World) file,
  run_ops os w = (rs, w') →
  is_Some (logs w' !! file) ↔
    live os rs file ∨
    (is_Some (logs w !! file) ∧ ∀ j, os !! j ≠ Some (OpStop file)).
Proof.
  induction os as [|o os IH]; intros w rs w' file; simpl.
  - intros [= <- <-]. split; [intros ?; by right|].
    intros [(i & E & c & Hi & _)|[? _]]; [|done].
    by rewrite lookup_nil in Hi.
  - destruct (run_op o w) as [r w1] eqn:Hop.
    destruct (run_ops os w1) as [rs' w2] eqn:Hops. intros [= <- <-].
    rewrite (IH _ _ _ file Hops), (run_op_logs _ _ _ _ file Hop).
    split.
    + intros [(i & E & c & Hi & Hr & Hj)|[[[(E & c & ->) ->]|[Hw Ho]] Hns]].
      * left. exists (S i), E, c. split_and!; [done..|].
        intros [|j] Hlt; [lia|]. simpl. apply Hj. lia.
      * left. exists 0, E, c. split_and!; [done..|].
        intros [|j] Hlt; [lia|]. simpl. apply Hns.
      * right. split; [done|]. intros [|j]; simpl; [congruence|apply Hns].
    + intros [(i & E & c & Hi & Hr & Hj)|[Hw Hns]].
      * destruct i as [|i]; simpl in *.
        -- right. simplify_eq. split; [left; eauto|].
           intros j. apply (Hj (S j)). lia.
        -- left. exists i, E, c. split_and!; [done..|].
           intros j Hlt. apply (Hj (S j)). lia.
      * right. split; [|intros j; apply (Hns (S j))].
        right. split; [done|]. intros ->. by apply (Hns 0).
Qed.

(** C3. After any sequence of StartLogging, StopLogging and ReadLogs
    calls on a new driver, a pair is present in the stream-keyed map for
    an identifier exactly when some start for that identifier returned nil
    and no stop for it came later.  When the identifier is registered, its
    pair's fifo is open, and StopLogging closes that fifo and removes the
    identifier from the stream-keyed map, returning nil; when it is not
    registered, StopLogging returns nil and changes nothing.  Conversely a
    fifo that no stop has closed belongs to the pair registered for its
    identifier. *)
Theorem registry_invariant os rs (w : World) file :
  run_ops os boot = (rs, w) →
  (is_Some (logs w !! file) ↔ live os rs file) ∧
  (∀ lf, logs w !! file = Some lf →
     heap w !! stream lf = Some (OFifo file false) ∧
     (StopLogging file w).1 = Ok tt ∧
     heap (StopLogging file w).2 !! stream lf = Some (OFifo file true) ∧
     logs (StopLogging file w).2 = delete file (logs w)) ∧
  (logs w !! file = None → StopLogging file w = (Ok tt, w)) ∧
  (∀ l, heap w !! l = Some (OFifo file false) →
     ∃ lf, logs w !! file = Some lf ∧ stream lf = l).
Proof.
  intros Hrun. split_and!.
  - rewrite (run_ops_logs _ _ _ _ file Hrun). simpl. rewrite lookup_empty.
    split; [|by left]. intros [?|[[? ?] _]]; done.
  - intros lf Hlf.
    pose proof (wf_run_ops os boot wf_boot) as Hwf.
    rewrite Hrun in Hwf. destruct Hwf as (Hl & _ & _).
    destruct (Hl _ _ Hlf) as [Hs _]. simpl in Hs.
    rewrite (StopLogging_Some _ lf) by done. simpl.
    split_and!; [done..| |done].
    by rewrite lookup_alter_eq, Hs.
  - apply StopLogging_None.
  - intros l Hl.
    assert (open_registered boot) as H0.
    { intros l' f'. simpl. by rewrite lookup_empty. }
    pose proof (open_registered_run_ops os boot wf_boot H0) as Hopen.
    rewrite Hrun in Hopen. by apply Hopen.
Qed.

(** The walk-through [ops_demo]: "A" ends registered with its fifo at
    address 6, "B" does not. *)
Lemma registry_invariant_witness :
  ((is_Some (logs (run_ops ops_demo boot).2 !! "A") ↔
    live ops_demo (run_ops ops_demo boot).1 "A") ∧
   (∀ lf, logs (run_ops ops_demo boot).2 !! "A" = Some lf →
      heap (run_ops ops_demo boot).2 !! stream lf = Some (OFifo "A" false) ∧
      (StopLogging "A" (run_ops ops_demo boot).2).1 = Ok tt ∧
      heap (StopLogging "A" (run_ops ops_demo boot).2).2 !! stream lf =
        Some (OFifo "A" true) ∧
      logs (StopLogging "A" (run_ops ops_demo boot).2).2 =
        delete "A" (logs (run_ops ops_demo boot).2))) ∧
  (logs (run_ops ops_demo boot).2 !! "B" = None ∧
   StopLogging "B" (run_ops ops_demo boot).2 =
     (Ok tt, (run_ops ops_demo boot).2)) ∧
  (heap (run_ops ops_demo boot).2 !! 6 = Some (OFifo "A" false) ∧
   ∃ lf, logs (run_ops ops_demo boot).2 !! "A" = Some lf ∧ stream lf = 6).
Proof.
  destruct (run_ops ops_demo boot) as [rs w] eqn:Hrun.
  destruct (registry_invariant ops_demo rs w "A" Hrun) as (HA1 & HA2 & _ & HA4).
  destruct (registry_invariant ops_demo rs w "B" Hrun) as (_ & _ & HB & _).
  assert (logs w !! "B" = None) as HnoB.
  { vm_compute in Hrun. by simplify_eq. }
  assert (heap w !! 6 = Some (OFifo "A" false)) as H6.
  { vm_compute in Hrun. by simplify_eq. }
  split; [split; [exact HA1|exact HA2]|].
  split; [split; [exact HnoB|exact (HB HnoB)]|].
  split; [exact H6|exact (HA4 6 H6)].
Defined.

(** ** The length prefix *)

Lemma Z_of_byte_of_Z z : Z_of_byte (byte_of_Z z) = (z mod 256)%Z.
Proof.
  unfold Z_of_byte, byte_of_Z.
  assert (0 ≤ z mod 256 < 256)%Z as Hr by (apply Z.mod_pos_bound; lia).
  destruct (Byte.of_N (Z.to_N (z mod 256))) as [b|] eqn:Hb; simpl.
  - apply Byte.to_of_N in Hb. rewrite Hb. apply Z2N.id. lia.
  - apply Byte.of_N_None_iff in Hb. lia.
Qed.

Lemma lor_shiftl_add a b k :
  (0 ≤ k)%Z → (0 ≤ a < 2 ^ k)%Z → (0 ≤ b)%Z →
  Z.lor a (b ≪ k) = (a + b * 2 ^ k)%Z.
Proof.
  intros Hk Ha Hb.
  assert (Z.land a (b ≪ k) = 0%Z) as Hdisj.
  { apply Z.bits_inj'. intros n Hn. rewrite Z.land_spec, Z.bits_0.
    destruct (decide (n < k)%Z).
    - rewrite (Z.shiftl_spec_low b k n) by lia. apply andb_false_r.
    - destruct (decide (a = 0%Z)) as [->|Hne]; [by rewrite Z.bits_0|].
      rewrite (Z.bits_above_log2 a n); [done|lia|].
      apply Z.log2_lt_pow2; [lia|].
      apply Z.lt_le_trans with (2 ^ k)%Z; [lia|].
      apply Z.pow_le_mono_r; lia. }
  rewrite <- Z.lxor_lor by done. rewrite <- Z.add_nocarry_lxor by done.
  by rewrite Z.shiftl_mul_pow2.
Qed.

Lemma Uint32_PutUint32 v b0 b1 b2 b3 :
  (0 ≤ v < 2 ^ 32)%Z →
  PutUint32 v = [b0; b1; b2; b3] →
  Uint32 b0 b1 b2 b3 = v.
Proof.
  intros Hv [= <- <- <- <-]. unfold Uint32.
  rewrite !Z_of_byte_of_Z, !Z.shiftr_div_pow2 by lia.
  change 256%Z with (2 ^ 8)%Z.
  rewrite (lor_shiftl_add _ _ 8); [|lia|apply Z.mod_pos_bound; lia|apply Z.mod_pos_bound; lia].
  rewrite (lor_shiftl_add _ _ 16); [|lia| |apply Z.mod_pos_bound; lia].
  2: { pose proof (Z.mod_pos_bound v (2 ^ 8)). pose proof (Z.mod_pos_bound (v / 2 ^ 8) (2 ^ 8)). lia. }
  rewrite (lor_shiftl_add _ _ 24); [|lia| |apply Z.mod_pos_bound; lia].
  2: { pose proof (Z.mod_pos_bound v (2 ^ 8)).
       pose proof (Z.mod_pos_bound (v / 2 ^ 8) (2 ^ 8)).
       pose proof (Z.mod_pos_bound (v / 2 ^ 16) (2 ^ 8)). lia. }
  change (2 ^ 8)%Z with 256%Z. change (2 ^ 16)%Z with 65536%Z.
  change (2 ^ 24)%Z with 16777216%Z. change (2 ^ 32)%Z with 4294967296%Z in Hv.
  Z.to_euclidean_division_equations. lia.
Qed.

(** ** The goroutine of ReadLogs *)

Lemma same_fields_entry_of e msg : same_fields e msg ↔ e = entry_of msg.
Proof.
  split.
  - intros (H1 & H2 & H3 & H4). destruct e; simpl in *. by subst.
  - intros ->. by repeat split.
Qed.

Lemma Write_accepts data p n :
  accepts p n → length data ≤ n →
  ∃ p', Write data p = (p', None) ∧
        delivered p' = delivered p ++ data ∧
        accepts p' (n - length data).
Proof.
  intros [Hw Hb] Hlen. unfold Write. rewrite Hw.
  destruct (reader_budget p) as [[|k]|] eqn:Hk; [lia| |].
  - assert ((length data <=? S k) = true) as -> by (apply Nat.leb_le; lia).
    eexists. split; [done|]. split; [done|]. split; [done|]. simpl. lia.
  - eexists. split; [done|]. split; [done|]. split; [done|]. simpl. by rewrite Hk.
Qed.

Section BridgeProperties.

Variable Marshal : logdriver.LogEntry → list byte.
Variable Unmarshal : list byte → option logdriver.LogEntry.

Lemma length_frame e : length (frame Marshal e) = 4 + length (Marshal e).
Proof. unfold frame. by rewrite length_app. Qed.

Lemma frames_cons e es :
  frames Marshal (e :: es) = frame Marshal e ++ frames Marshal es.
Proof. done. Qed.

Lemma length_frames_ge es : length es ≤ length (frames Marshal es).
Proof.
  induction es as [|e es IH]; [done|].
  rewrite frames_cons, length_app, length_frame. simpl. lia.
Qed.

Lemma WriteMsg_accepts e p n :
  accepts p n → length (frame Marshal e) ≤ n →
  ∃ p', WriteMsg Marshal e p = (p', None) ∧
        delivered p' = delivered p ++ frame Marshal e ∧
        accepts p' (n - length (frame Marshal e)).
Proof.
  intros Hacc Hlen. rewrite length_frame in Hlen. unfold WriteMsg.
  destruct (Write_accepts (PutUint32 (Z.of_nat (length (Marshal e)) mod 2 ^ 32)) p n Hacc)
    as (p1 & -> & Hd1 & Hacc1); [simpl; lia|].
  destruct (Write_accepts (Marshal e) p1 _ Hacc1) as (p2 & -> & Hd2 & Hacc2);
    [simpl; lia|].
  exists p2. split; [done|]. split.
  - rewrite Hd2, Hd1. unfold frame. by rewrite <- app_assoc.
  - rewrite length_frame. simpl in Hacc2.
    by replace (n - (4 + length (Marshal e))) with (n - 4 - length (Marshal e)) by lia.
Qed.

(** The loop, as long as the reading side keeps taking bytes: every
    message received becomes one frame, in order, and the loop then
    waits or ends as the first other event says. *)
Lemma bridge_loop_received evs : ∀ b,
  accepts (pipe b) (length (frames Marshal (map entry_of (received evs)))) →
  ∃ b',
    delivered (pipe b') =
      delivered (pipe b) ++ frames Marshal (map entry_of (received evs)) ∧
    werr (pipe b') = None ∧
    watcher_closed b' = watcher_closed b ∧
    bridge_loop Marshal evs b =
      match terminal evs with
      | None => (Waiting, b')
      | Some (EndErr err) => (Returned, set_pipe (CloseWithError err) b')
      | Some EndClosed => (Returned, set_pipe Close b')
      end.
Proof.
  induction evs as [|[msg| |err] evs IH]; intros b Hacc;
    cbn [received terminal map bridge_loop] in *.
  - exists b. rewrite app_nil_r. by destruct Hacc.
  - rewrite frames_cons, length_app in Hacc.
    destruct (WriteMsg_accepts (entry_of msg) (pipe b) _ Hacc) as (p1 & Hw & Hd & Hacc1);
      [lia|].
    match goal with |- context [WriteMsg Marshal ?e ?p] =>
      change (WriteMsg Marshal e p) with (WriteMsg Marshal (entry_of msg) (pipe b)) end.
    rewrite Hw.
    match goal with |- context [bridge_loop Marshal evs ?b1] =>
      destruct (IH b1) as (b' & Hd' & Hw' & Hc' & ->) end.
    { simpl. by replace (length (frames Marshal (map entry_of (received evs))))
        with (length (frame Marshal (entry_of msg)) +
              length (frames Marshal (map entry_of (received evs))) -
              length (frame Marshal (entry_of msg))) by lia. }
    exists b'. split_and!; [|done..].
    rewrite Hd'. simpl. rewrite Hd, frames_cons. by rewrite <- app_assoc.
  - exists b. rewrite app_nil_r. by destruct Hacc.
  - exists b. rewrite app_nil_r. by destruct Hacc.
Qed.

(** However the loop ends, it leaves the watcher alone, and when it
    returns the writing side is closed. *)
Lemma bridge_loop_exit evs : ∀ b st b',
  bridge_loop Marshal evs b = (st, b') →
  watcher_closed b' = watcher_closed b ∧
  (st = Returned → is_Some (werr (pipe b'))) ∧
  (st = Waiting → terminal evs = None).
Proof.
  assert (∀ err p, is_Some (werr (CloseWithError err p))) as Hclosed.
  { intros err p. unfold CloseWithError. destruct (werr p) eqn:Hp; [by rewrite Hp|].
    simpl. eauto. }
  induction evs as [|[msg| |err] evs IH]; intros b st b'; simpl.
  - intros [= <- <-]. done.
  - destruct (WriteMsg Marshal _ (pipe b)) as [p1 [err|]].
    + intros [= <- <-]. simpl. split_and!; [done| |done]. intros _. apply Hclosed.
    + intros Hrun. apply IH in Hrun as (Hc & Hr & Hwait). done.
  - intros [= <- <-]. simpl. split_and!; [done| |done]. intros _. apply Hclosed.
  - intros [= <- <-]. simpl. split_and!; [done| |done]. intros _. apply Hclosed.
Qed.

(** One frame on the reading side. *)
Lemma read_frames_cons fuel v data rest :
  (0 ≤ v < 2 ^ 32)%Z → Z.to_nat v = length data →
  read_frames Unmarshal (S fuel) (PutUint32 v ++ data ++ rest) =
    e ← Unmarshal data; es ← read_frames Unmarshal fuel rest; Some (e :: es).
Proof.
  intros Hv Hlen. unfold PutUint32. cbn [app read_frames].
  rewrite (Uint32_PutUint32 v) by done. rewrite Hlen.
  assert ((length data <=? length (data ++ rest)) = true) as ->.
  { apply Nat.leb_le. rewrite length_app. lia. }
  by rewrite take_app_length, drop_app_length.
Qed.

Lemma read_frames_frames es : ∀ fuel,
  Forall (codec_ok Marshal Unmarshal) es → length es ≤ fuel →
  read_frames Unmarshal fuel (frames Marshal es) = Some es.
Proof.
  induction es as [|e es IH]; intros fuel Hok Hfuel.
  - by destruct fuel.
  - destruct fuel as [|fuel]; [simpl in Hfuel; lia|].
    apply Forall_cons in Hok as [[Hrt Hsz] Hok].
    rewrite frames_cons. unfold frame. rewrite <- app_assoc.
    rewrite Z.mod_small by lia.
    rewrite read_frames_cons; [|lia|lia].
    rewrite Hrt. simpl. rewrite IH; [done|done|]. simpl in Hfuel. lia.
Qed.

Lemma ReadAll_frames es :
  Forall (codec_ok Marshal Unmarshal) es →
  ReadAll Unmarshal (frames Marshal es) = Some es.
Proof. intros Hok. apply read_frames_frames; [done|]. apply length_frames_ge. Qed.

End BridgeProperties.

(** What the goroutine has handed to the reading side, as long as that
    side keeps taking bytes. *)
Lemma bridge_delivered Marshal evs p :
  delivered p = [] →
  accepts p (length (frames Marshal (map entry_of (received evs)))) →
  delivered (pipe (bridge Marshal evs p).2) =
    frames Marshal (map entry_of (received evs)).
Proof.
  intros Hempty Hacc.
  set (b0 := {| pipe := p; watcher_closed := false; buf := logdriver.Reset |}).
  destruct (bridge_loop_received Marshal evs b0 Hacc) as (b' & Hd & _ & _ & Hloop).
  simpl in Hd. rewrite Hempty in Hd. simpl in Hd.
  unfold bridge. fold b0. rewrite Hloop.
  assert (∀ err q, delivered (CloseWithError err q) = delivered q) as Hcl.
  { intros err q. unfold CloseWithError. by destruct (werr q). }
  destruct (terminal evs) as [[|err]|]; simpl; unfold Close;
    by rewrite ?Hcl.
Qed.

(** C2. For every feed, as long as the reading side keeps taking bytes and
    the codec round-trips the entries (whose bytes fit the uint32 prefix),
    the goroutine writes one length-delimited frame per message received,
    in the order received; reading the frames back gives entries whose
    line, partial flag, timestamp in nanoseconds and source are those of
    the messages, one for one and in the same order. *)
Theorem bridge_frames_roundtrip Marshal Unmarshal evs p :
  delivered p = [] →
  accepts p (length (frames Marshal (map entry_of (received evs)))) →
  Forall (λ msg, codec_ok Marshal Unmarshal (entry_of msg)) (received evs) →
  ∃ es,
    delivered (pipe (bridge Marshal evs p).2) = frames Marshal es ∧
    ReadAll Unmarshal (delivered (pipe (bridge Marshal evs p).2)) = Some es ∧
    Forall2 same_fields es (received evs).
Proof.
  intros Hempty Hacc Hok.
  exists (map entry_of (received evs)).
  rewrite (bridge_delivered Marshal evs p Hempty Hacc). split_and!; [done| |].
  - apply ReadAll_frames. by apply Forall_fmap.
  - apply Forall2_fmap_l, Forall_Forall2_diag, Forall_forall.
    intros msg _. by apply same_fields_entry_of.
Qed.

Lemma bridge_frames_roundtrip_witness :
  ∃ es,
    delivered (pipe (bridge proto.Marshal feed_clean (empty_pipe (Some 64))).2) =
      frames proto.Marshal es ∧
    ReadAll proto.Unmarshal
      (delivered (pipe (bridge proto.Marshal feed_clean (empty_pipe (Some 64))).2)) =
      Some es ∧
    Forall2 same_fields es (received feed_clean).
Proof.
  apply (bridge_frames_roundtrip proto.Marshal proto.Unmarshal feed_clean
           (empty_pipe (Some 64))).
  - reflexivity.
  - split; [reflexivity|]. vm_compute. lia.
  - repeat constructor; vm_compute; reflexivity.
Defined.

(** C8. When the first event that is not a message is an error from the
    feed's error channel, the goroutine returns with the writing side
    closed with that error; when it is the clean close of the message
    channel, with the writing side closed with io.EOF (end of stream);
    with no such event it keeps waiting and the pipe stays open.  And
    however the goroutine comes to return, writes that fail included,
    watcher.Close() has run and the writing side is closed; it has not run
    while the goroutine waits. *)
Theorem bridge_exits Marshal evs p st b :
  bridge Marshal evs p = (st, b) →
  (st = Returned → watcher_closed b = true ∧ is_Some (werr (pipe b))) ∧
  (st = Waiting → watcher_closed b = false ∧ terminal evs = None) ∧
  (accepts p (length (frames Marshal (map entry_of (received evs)))) →
     match terminal evs with
     | Some (EndErr (Some err)) => st = Returned ∧ werr (pipe b) = Some err
     | Some (EndErr None) => st = Returned ∧ werr (pipe b) = Some EOF
     | Some EndClosed => st = Returned ∧ werr (pipe b) = Some EOF
     | None => st = Waiting ∧ werr (pipe b) = None
     end).
Proof.
  unfold bridge.
  set (b0 := {| pipe := p; watcher_closed := false; buf := logdriver.Reset |}).
  intros Hrun. split_and!.
  - intros ->. destruct (bridge_loop Marshal evs b0) as [st1 b1] eqn:Hloop.
    apply bridge_loop_exit in Hloop as (_ & Hr & _).
    destruct st1; simplify_eq. simpl. split; [done|].
    destruct (Hr eq_refl) as [err Herr]. unfold Close, CloseWithError.
    rewrite Herr. eauto.
  - intros ->. destruct (bridge_loop Marshal evs b0) as [st1 b1] eqn:Hloop.
    apply bridge_loop_exit in Hloop as (Hc & _ & Hw).
    destruct st1; simplify_eq. split; [done|]. by apply Hw.
  - intros Hacc.
    destruct (bridge_loop_received Marshal evs b0 Hacc) as (b' & _ & Hw & _ & Hloop).
    rewrite Hloop in Hrun.
    destruct (terminal evs) as [[|[err|]]|] eqn:Hterm; simplify_eq; simpl;
      unfold Close, CloseWithError; simpl; rewrite ?Hw; simpl; done.
Qed.

Lemma bridge_exits_witness :
  (bridge proto.Marshal feed_error (empty_pipe None)).1 = Returned ∧
  watcher_closed (bridge proto.Marshal feed_error (empty_pipe None)).2 = true ∧
  werr (pipe (bridge proto.Marshal feed_error (empty_pipe None)).2) =
    Some (ErrExternal "error reading log file").
Proof.
  destruct (bridge proto.Marshal feed_error (empty_pipe None)) as [st b] eqn:Hrun.
  destruct (bridge_exits proto.Marshal feed_error (empty_pipe None) st b Hrun)
    as (Hret & _ & Hterm).
  assert (accepts (empty_pipe None)
            (length (frames proto.Marshal (map entry_of (received feed_error))))) as Hacc
    by (split; reflexivity).
  specialize (Hterm Hacc). simpl in Hterm. destruct Hterm as [-> Herr].
  destruct (Hret eq_refl) as [Hclosed _]. by split_and!.
Defined.

(** The reading side closes after 40 bytes: the second write fails, the
    goroutine returns, and the watcher is closed all the same. *)
Example bridge_reader_closes_early :
  (bridge proto.Marshal feed_clean (empty_pipe (Some 40))).1 = Returned ∧
  watcher_closed (bridge proto.Marshal feed_clean (empty_pipe (Some 40))).2 = true ∧
  werr (pipe (bridge proto.Marshal feed_clean (empty_pipe (Some 40))).2) =
    Some ErrClosedPipe ∧
  length (delivered (pipe (bridge proto.Marshal feed_clean (empty_pipe (Some 40))).2)) = 40.
Proof. split_and!; vm_compute; reflexivity. Qed.

(** ** The protobuf codec round-trips *)

Lemma Z_of_byte_small v : (0 ≤ v < 256)%Z → Z_of_byte (byte_of_Z v) = v.
Proof. intros Hv. rewrite Z_of_byte_of_Z. by apply Z.mod_small. Qed.

(** The last byte of a varint. *)
Lemma decodeVarint_last fuel shift v rest :
  (0 ≤ shift)%Z → (0 ≤ v < 128)%Z → (v * 2 ^ shift < 2 ^ 64)%Z →
  proto.decodeVarint_from (S fuel) shift (byte_of_Z v :: rest) =
    Some ((v * 2 ^ shift)%Z, rest).
Proof.
  intros Hs Hv Hlt. cbn [proto.decodeVarint_from].
  rewrite Z_of_byte_small by lia.
  assert ((v <? 128)%Z = true) as -> by (apply Z.ltb_lt; lia).
  change 127%Z with (Z.ones 7). rewrite Z.land_ones by lia.
  rewrite (Z.mod_small v) by (change (2 ^ 7)%Z with 128%Z; lia).
  rewrite Z.shiftl_mul_pow2 by lia. rewrite Z.mod_small; [done|].
  split; [|done]. apply Z.mul_nonneg_nonneg; [lia|]. apply Z.pow_nonneg. lia.
Qed.

Lemma varint_roundtrip fuel : ∀ shift v rest,
  (0 ≤ shift)%Z → (0 ≤ v)%Z → (v * 2 ^ shift < 2 ^ 64)%Z →
  (v < 2 ^ (7 * (Z.of_nat fuel + 1)))%Z →
  proto.decodeVarint_from (S fuel) shift (proto.encodeVarint_from fuel v ++ rest) =
    Some ((v * 2 ^ shift)%Z, rest).
Proof.
  induction fuel as [|fuel IH]; intros shift v rest Hs Hv Hlt Hbound.
  - cbn [proto.encodeVarint_from app]. apply decodeVarint_last; [done| |done].
    change (2 ^ (7 * (Z.of_nat 0 + 1)))%Z with 128%Z in Hbound. lia.
  - cbn [proto.encodeVarint_from]. destruct (v <? 128)%Z eqn:Hsmall.
    { apply Z.ltb_lt in Hsmall. cbn [app]. apply decodeVarint_last; [done|lia|done]. }
    apply Z.ltb_ge in Hsmall. cbn [app].
    assert (0 < 2 ^ shift)%Z as Hpow by (apply Z.pow_pos_nonneg; lia).
    assert (Z.lor (Z.land v 127) 128 = v mod 128 + 128)%Z as Hbyte.
    { change 127%Z with (Z.ones 7). rewrite Z.land_ones by lia.
      change 128%Z with (1 ≪ 7)%Z at 1.
      rewrite lor_shiftl_add; [done|lia|apply Z.mod_pos_bound; lia|lia]. }
    pose proof (Z.mod_pos_bound v 128 ltac:(lia)) as Hmod.
    change (proto.decodeVarint_from (S (S fuel)) shift (?b :: ?bs)) with
      (let w := ((Z.land (Z_of_byte b) 127 ≪ shift) mod 2 ^ 64)%Z in
       if (Z_of_byte b <? 128)%Z then Some (w, bs)
       else '(v', bs') ← proto.decodeVarint_from (S fuel) (shift + 7)%Z bs;
            Some (Z.lor w v', bs')).
    rewrite Hbyte, Z_of_byte_small by lia.
    assert ((v mod 128 + 128 <? 128)%Z = false) as -> by (apply Z.ltb_ge; lia).
    assert (Z.land (v mod 128 + 128) 127 = v mod 128)%Z as ->.
    { change 127%Z with (Z.ones 7). rewrite Z.land_ones by lia.
      change (2 ^ 7)%Z with 128%Z.
      rewrite <- (Z.mul_1_l 128) at 2. rewrite Z.mod_add by lia.
      apply Z.mod_small. lia. }
    assert (v = 128 * (v / 128) + v mod 128)%Z as Hdiv by (apply Z.div_mod; lia).
    assert (0 ≤ v / 128)%Z as Hq by (apply Z.div_pos; lia).
    assert (2 ^ (shift + 7) = 128 * 2 ^ shift)%Z as Hp7.
    { rewrite Z.pow_add_r by lia. change (2 ^ 7)%Z with 128%Z. lia. }
    rewrite (Z.shiftr_div_pow2 v 7) by lia. change (2 ^ 7)%Z with 128%Z.
    rewrite IH; [|lia|exact Hq| |].
    + cbn. f_equal. f_equal.
      rewrite Z.shiftl_mul_pow2 by lia.
      rewrite (Z.mod_small (v mod 128 * 2 ^ shift)) by nia.
      rewrite <- (Z.shiftl_mul_pow2 (v / 128)) by lia.
      rewrite lor_shiftl_add; [|lia| |done].
      * rewrite Hp7. nia.
      * rewrite Hp7. nia.
    + rewrite Hp7. nia.
    + replace (7 * (Z.of_nat (S fuel) + 1))%Z with (7 + 7 * (Z.of_nat fuel + 1))%Z in Hbound by lia.
      rewrite Z.pow_add_r in Hbound by lia. change (2 ^ 7)%Z with 128%Z in Hbound.
      apply Z.div_lt_upper_bound; lia.
Qed.

Lemma decodeVarint_encodeVarint v rest :
  (0 ≤ v < 2 ^ 64)%Z →
  proto.decodeVarint (proto.encodeVarint v ++ rest) = Some (v, rest).
Proof.
  intros Hv. unfold proto.decodeVarint, proto.encodeVarint.
  rewrite varint_roundtrip; [|lia|lia| |].
  - by rewrite Z.pow_0_r, Z.mul_1_r.
  - rewrite Z.pow_0_r, Z.mul_1_r. lia.
  - change (2 ^ (7 * (Z.of_nat 9 + 1)))%Z with (2 ^ 64 * 64)%Z. lia.
Qed.

Lemma Z_of_byte_nonneg b : (0 ≤ Z_of_byte b)%Z.
Proof. unfold Z_of_byte. lia. Qed.

(** A field key below 128 is one byte. *)
Lemma decodeVarint_tag t rest :
  (Z_of_byte t < 128)%Z →
  proto.decodeVarint (t :: rest) = Some (Z_of_byte t, rest).
Proof.
  intros Ht. pose proof (Z_of_byte_nonneg t) as H0.
  unfold proto.decodeVarint. cbn [proto.decodeVarint_from].
  assert ((Z_of_byte t <? 128)%Z = true) as -> by (apply Z.ltb_lt; lia).
  change 127%Z with (Z.ones 7). rewrite Z.land_ones by lia.
  rewrite (Z.mod_small (Z_of_byte t)) by (change (2 ^ 7)%Z with 128%Z; lia).
  rewrite Z.shiftl_0_r, Z.mod_small; [done|]. lia.
Qed.

Lemma wrap64_mod t :
  (- 2 ^ 63 ≤ t < 2 ^ 63)%Z → wrap64 (t mod 2 ^ 64) = t.
Proof.
  intros Ht. unfold wrap64.
  change (2 ^ 63)%Z with 9223372036854775808%Z in *.
  change (2 ^ 64)%Z with 18446744073709551616%Z.
  Z.to_euclidean_division_equations. lia.
Qed.

Lemma wrap64_range z : (- 2 ^ 63 ≤ wrap64 z < 2 ^ 63)%Z.
Proof.
  unfold wrap64. pose proof (Z.mod_pos_bound (z + 2 ^ 63) (2 ^ 64)) as H.
  change (2 ^ 64)%Z with (2 * 2 ^ 63)%Z in *. lia.
Qed.

(** One pass of the loop of Unmarshal over a length-delimited field. *)
Lemma Unmarshal_length_delimited fuel tag data rest m :
  data ≠ [] → (Z.of_nat (length data) < 2 ^ 64)%Z →
  tag = x0a ∨ tag = x1a →
  proto.Unmarshal_from (S fuel) (proto.length_delimited tag data ++ rest) m =
    proto.Unmarshal_from fuel rest
      (if decide (tag = x0a)
       then logdriver.set_Source (String.string_of_list_byte data) m
       else logdriver.set_Line data m).
Proof.
  intros Hne Hlen Htag. unfold proto.length_delimited.
  rewrite decide_False by (by destruct data).
  cbn [app proto.Unmarshal_from].
  rewrite decodeVarint_tag by (by destruct Htag as [-> | ->]).
  cbn [mbind option_bind]. rewrite <- app_assoc.
  destruct Htag as [-> | ->].
  - change (Z_of_byte x0a) with 10%Z.
    change (10 ≫ 3)%Z with 1%Z. change (Z.land 10 7) with 2%Z.
    rewrite decide_True by done.
    rewrite decodeVarint_encodeVarint by lia. cbn [mbind option_bind].
    rewrite Nat2Z.id, decide_True by (rewrite length_app; lia).
    by rewrite take_app_length, drop_app_length.
  - change (Z_of_byte x1a) with 26%Z.
    change (26 ≫ 3)%Z with 3%Z. change (Z.land 26 7) with 2%Z.
    rewrite decide_False by (intros [? _]; done).
    rewrite decide_False by (intros [? _]; done).
    rewrite decide_True by done.
    rewrite decodeVarint_encodeVarint by lia. cbn [mbind option_bind].
    rewrite Nat2Z.id, decide_True by (rewrite length_app; lia).
    by rewrite take_app_length, drop_app_length.
Qed.

(** One pass over the time_nano field. *)
Lemma Unmarshal_time_nano fuel t rest m :
  (- 2 ^ 63 ≤ t < 2 ^ 63)%Z →
  proto.Unmarshal_from (S fuel) ((x10 :: proto.encodeVarint (t mod 2 ^ 64)) ++ rest) m =
    proto.Unmarshal_from fuel rest (logdriver.set_TimeNano t m).
Proof.
  intros Ht. cbn [app proto.Unmarshal_from].
  rewrite decodeVarint_tag by done. cbn [mbind option_bind].
  change (Z_of_byte x10) with 16%Z.
  change (16 ≫ 3)%Z with 2%Z. change (Z.land 16 7) with 0%Z.
  rewrite decide_False by (intros [? _]; done).
  rewrite decide_True by done.
  rewrite decodeVarint_encodeVarint by (apply Z.mod_pos_bound; lia).
  cbn [mbind option_bind]. by rewrite wrap64_mod.
Qed.

(** One pass over the partial field. *)
Lemma Unmarshal_partial fuel m :
  proto.Unmarshal_from (S fuel) [x20; x01] m = Some (logdriver.set_Partial true m).
Proof.
  cbn [proto.Unmarshal_from].
  rewrite decodeVarint_tag by done. cbn [mbind option_bind].
  change (Z_of_byte x20) with 32%Z.
  change (32 ≫ 3)%Z with 4%Z. change (Z.land 32 7) with 0%Z.
  rewrite decide_False by (intros [? _]; done).
  rewrite decide_False by (intros [? _]; done).
  rewrite decide_False by (intros [? _]; done).
  rewrite decide_True by done.
  rewrite decodeVarint_tag by done. cbn [mbind option_bind].
  by destruct fuel.
Qed.

(** The same passes, for a field that may be absent, with enough fuel. *)
Lemma Unmarshal_opt_length_delimited fuel tag data rest m :
  (Z.of_nat (length data) < 2 ^ 64)%Z →
  tag = x0a ∨ tag = x1a →
  length (proto.length_delimited tag data ++ rest) ≤ fuel →
  ∃ fuel', length rest ≤ fuel' ∧
    proto.Unmarshal_from fuel (proto.length_delimited tag data ++ rest) m =
      proto.Unmarshal_from fuel' rest
        (if decide (data = []) then m
         else if decide (tag = x0a)
              then logdriver.set_Source (String.string_of_list_byte data) m
              else logdriver.set_Line data m).
Proof.
  intros Hlen Htag Hfuel. destruct (decide (data = [])) as [->|Hne].
  { exists fuel. by split. }
  destruct fuel as [|fuel].
  { exfalso. unfold proto.length_delimited in Hfuel.
    rewrite decide_False in Hfuel by (by destruct data). simpl in Hfuel. lia. }
  exists fuel. split.
  - unfold proto.length_delimited in Hfuel.
    rewrite decide_False in Hfuel by (by destruct data).
    rewrite length_app in Hfuel. simpl in Hfuel. lia.
  - by apply Unmarshal_length_delimited.
Qed.

Lemma Unmarshal_opt_time_nano fuel t rest m :
  (- 2 ^ 63 ≤ t < 2 ^ 63)%Z →
  length ((if decide (t = 0%Z) then []
           else x10 :: proto.encodeVarint (t mod 2 ^ 64)) ++ rest) ≤ fuel →
  ∃ fuel', length rest ≤ fuel' ∧
    proto.Unmarshal_from fuel
      ((if decide (t = 0%Z) then []
        else x10 :: proto.encodeVarint (t mod 2 ^ 64)) ++ rest) m =
      proto.Unmarshal_from fuel' rest
        (if decide (t = 0%Z) then m else logdriver.set_TimeNano t m).
Proof.
  intros Ht Hfuel. destruct (decide (t = 0%Z)) as [->|Hne].
  { exists fuel. by split. }
  destruct fuel as [|fuel]; [simpl in Hfuel; lia|].
  exists fuel. split.
  - rewrite length_app in Hfuel. simpl in Hfuel. lia.
  - by apply Unmarshal_time_nano.
Qed.

Lemma Unmarshal_opt_partial fuel (partial : bool) m :
  length (if partial then [x20; x01] else []) ≤ fuel →
  proto.Unmarshal_from fuel (if partial then [x20; x01] else []) m =
    Some (if partial then logdriver.set_Partial true m else m).
Proof.
  intros Hfuel. destruct partial.
  - destruct fuel as [|fuel]; [simpl in Hfuel; lia|]. apply Unmarshal_partial.
  - by destruct fuel.
Qed.

(** The protobuf codec takes every entry whose bytes fit the length
    prefix to bytes and back. *)
Lemma proto_codec_ok (e : logdriver.LogEntry) :
  (- 2 ^ 63 ≤ logdriver.TimeNano e < 2 ^ 63)%Z →
  (Z.of_nat (length (proto.Marshal e)) < 2 ^ 32)%Z →
  codec_ok proto.Marshal proto.Unmarshal e.
Proof.
  intros Ht Hsz. split; [|done].
  assert (∀ tag data, length data ≤ length (proto.length_delimited tag data))%nat as Hld.
  { intros tag data. unfold proto.length_delimited. case_decide; [lia|].
    simpl. rewrite length_app. lia. }
  assert (Z.of_nat (length (String.list_byte_of_string (logdriver.Source e))) < 2 ^ 64
          ∧ Z.of_nat (length (logdriver.Line e)) < 2 ^ 64)%Z as [HS HL].
  { unfold proto.Marshal in Hsz. rewrite !length_app in Hsz.
    pose proof (Hld x0a (String.list_byte_of_string (logdriver.Source e))).
    pose proof (Hld x1a (logdriver.Line e)).
    change (2 ^ 64)%Z with (2 ^ 32 * 2 ^ 32)%Z. lia. }
  unfold proto.Unmarshal.
  generalize (le_n (length (proto.Marshal e))).
  generalize (length (proto.Marshal e)) at 2 3 as fuel. intros fuel Hfuel.
  unfold proto.Marshal in *.
  destruct (Unmarshal_opt_length_delimited fuel x0a _ _ logdriver.Reset HS (or_introl eq_refl) Hfuel)
    as (fuel1 & Hfuel1 & ->).
  destruct (Unmarshal_opt_time_nano fuel1 _ _
              (if decide (String.list_byte_of_string (logdriver.Source e) = []) then logdriver.Reset
               else if decide (x0a = x0a)
                    then logdriver.set_Source
                           (String.string_of_list_byte
                              (String.list_byte_of_string (logdriver.Source e))) logdriver.Reset
                    else logdriver.set_Line
                           (String.list_byte_of_string (logdriver.Source e)) logdriver.Reset)
              Ht Hfuel1)
    as (fuel2 & Hfuel2 & ->).
  match goal with |- proto.Unmarshal_from _ _ ?m = _ =>
    destruct (Unmarshal_opt_length_delimited fuel2 x1a _ _ m HL (or_intror eq_refl) Hfuel2)
      as (fuel3 & Hfuel3 & ->) end.
  rewrite Unmarshal_opt_partial by done.
  f_equal. rewrite String.string_of_list_byte_of_string.
  destruct e as [src t line partial]; simpl in *.
  assert (String.list_byte_of_string src = [] → src = "") as Hsrc.
  { intros H. rewrite <- (String.string_of_list_byte_of_string src). by rewrite H. }
  repeat case_decide; destruct partial; simpl; subst; try rewrite Hsrc by done;
    reflexivity.
Qed.

(** ** The read-back path end to end, with the protobuf codec *)

(** The goroutine with the protobuf codec: no assumption on the codec is
    left, only that each entry fits the length prefix. *)
Lemma bridge_proto_roundtrip evs p :
  delivered p = [] →
  accepts p (length (frames proto.Marshal (map entry_of (received evs)))) →
  Forall (λ msg, (Z.of_nat (length (proto.Marshal (entry_of msg))) < 2 ^ 32)%Z)
         (received evs) →
  ∃ es,
    ReadAll proto.Unmarshal (delivered (pipe (bridge proto.Marshal evs p).2)) = Some es ∧
    Forall2 same_fields es (received evs).
Proof.
  intros Hempty Hacc Hsz.
  exists (map entry_of (received evs)).
  rewrite (bridge_delivered proto.Marshal evs p Hempty Hacc). split.
  - apply ReadAll_frames, Forall_fmap. eapply Forall_impl; [exact Hsz|].
    intros msg Hmsg. simpl. apply proto_codec_ok; [|done]. apply wrap64_range.
  - apply Forall2_fmap_l, Forall_Forall2_diag, Forall_forall.
    intros msg _. by apply same_fields_entry_of.
Qed.

(** ReadLogs, then the goroutine it launched run on a feed, with a reader
    that takes everything: the pipe behind the returned handle holds the
    frames of the messages received. *)
Lemma ReadLogs_run_bridge info0 config (w : World) r (w' : World) evs :
  ReadLogs info0 config w = (Ok r, w') →
  Forall (λ msg, (Z.of_nat (length (proto.Marshal (entry_of msg))) < 2 ^ 32)%Z)
         (received evs) →
  ∃ t p es,
    last (tasks w') = Some t ∧
    heap (run_bridge proto.Marshal evs None t w') !! r = Some (OPipe p) ∧
    ReadAll proto.Unmarshal (delivered p) = Some es ∧
    Forall2 same_fields es (received evs).
Proof.
  intros Hread Hsz. pose proof (ReadLogs_cases info0 config w) as H.
  destruct (idx w !! ContainerID info0) as [lf|]; [|by rewrite H in Hread].
  simpl in H. destruct (as_LogReader (jsonl lf)); rewrite H in Hread; [|done].
  simplify_eq.
  destruct (bridge_proto_roundtrip evs (empty_pipe None)) as (es & Hes & Hfields);
    [done|by split|done|].
  eexists _, _, es. split_and!.
  - simpl. apply last_snoc.
  - simpl. rewrite lookup_insert_eq. simpl. apply lookup_insert_eq.
  - exact Hes.
  - exact Hfields.
Qed.

(** * Further properties of the driver *)

(** ** What decides a start *)

(** X1. StartLogging returns nil exactly when the file is not registered
    and each of the five steps it delegates succeeds on the log context
    with its path resolved: the directory, the json logger, the options,
    the splunk logger, the fifo. *)
Theorem StartLogging_Ok_iff E file logCtx (w : World) :
  (StartLogging E file logCtx w).1 = Ok tt ↔
    logs w !! file = None ∧
    os_MkdirAll E (filepath_Dir E (LogPath (resolve_LogPath E logCtx))) 493%Z = None ∧
    (∃ tj, jsonfilelog_New E (resolve_LogPath E logCtx) = inr tj) ∧
    ValidateLogOpt E (Config (resolve_LogPath E logCtx)) = None ∧
    (∃ ts, New E (resolve_LogPath E logCtx) = inr ts) ∧
    fifo_OpenFifo E file = None.
Proof.
  unfold StartLogging. run.
  destruct (logs w !! file) as [lf|] eqn:Hfile; simpl.
  { split; [done|]. by intros [? _]. }
  destruct (os_MkdirAll E _ _) as [e1|]; simpl.
  { split; [done|]. by intros (_ & ? & _). }
  destruct (jsonfilelog_New E _) as [e2|tj]; simpl.
  { split; [done|]. by intros (_ & _ & [? ?] & _). }
  destruct (ValidateLogOpt E _) as [e3|]; simpl.
  { split; [done|]. by intros (_ & _ & _ & ? & _). }
  destruct (New E _) as [e4|ts]; simpl.
  { split; [done|]. by intros (_ & _ & _ & _ & [? ?] & _). }
  destruct (fifo_OpenFifo E _) as [e5|]; simpl.
  { split; [done|]. by intros (_ & _ & _ & _ & _ & ?). }
  split; [|done]. intros _. split_and!; eauto.
Qed.

(** X2. Every way StartLogging fails, with the error it returns and the
    world it leaves: a duplicate, a directory that cannot be made or a
    json logger that cannot be built leave the world as it was; options
    that do not validate or a splunk logger that cannot be built leave the
    json logger, open, at the next address; a fifo that cannot be opened
    leaves both loggers, open.  The cause is wrapped with the message of
    the step. *)
Theorem StartLogging_failure_cases E file logCtx (w : World) e (w' : World) :
  StartLogging E file logCtx w = (Fail e, w') →
  let ctx := resolve_LogPath E logCtx in
  let one := set_next S (set_heap <[next w := OLogger false]> w) in
  let two := set_next S (set_heap <[next one := OLogger false]> one) in
  (is_Some (logs w !! file) ∧ e = ErrAlreadyExists file ∧ w' = w) ∨
  (∃ err, os_MkdirAll E (filepath_Dir E (LogPath ctx)) 493%Z = Some err ∧
          e = ErrWrap err "error setting up logger dir" ∧ w' = w) ∨
  (∃ err, jsonfilelog_New E ctx = inl err ∧
          e = ErrWrap err "error creating jsonfile logger" ∧ w' = w) ∨
  (∃ err, ValidateLogOpt E (Config ctx) = Some err ∧
          e = ErrWrapf err "error options logger splunk: %q" file ∧ w' = one) ∨
  (∃ err, New E ctx = inl err ∧
          e = ErrWrap err "error creating splunk logger" ∧ w' = one) ∨
  (∃ err, fifo_OpenFifo E file = Some err ∧
          e = ErrWrapf err "error opening logger fifo: %q" file ∧ w' = two).
Proof.
  unfold StartLogging. run.
  destruct (logs w !! file) as [lf|] eqn:Hfile; simpl.
  { intros [= <- <-]. left. eauto. }
  destruct (os_MkdirAll E _ _) as [e1|]; simpl.
  { intros [= <- <-]. right; left. eauto. }
  destruct (jsonfilelog_New E _) as [e2|tj]; simpl.
  { intros [= <- <-]. do 2 right; left. eauto. }
  destruct (ValidateLogOpt E _) as [e3|]; simpl.
  { intros [= <- <-]. do 3 right; left. eauto. }
  destruct (New E _) as [e4|ts]; simpl.
  { intros [= <- <-]. do 4 right; left. eauto. }
  destruct (fifo_OpenFifo E _) as [e5|]; simpl; [|done].
  intros [= <- <-]. do 5 right. eauto.
Qed.

Lemma StartLogging_failure_cases_witness :
  StartLogging env_bad_config "B" info_c2 world_A =
    (Fail (ErrWrapf (ErrExternal "splunk-url: must be set")
                    "error options logger splunk: %q" "B"),
     set_next S (set_heap <[next world_A := OLogger false]> world_A)).
Proof.
  destruct (StartLogging env_bad_config "B" info_c2 world_A) as [r w'] eqn:Hrun.
  assert (r = Fail (ErrWrapf (ErrExternal "splunk-url: must be set")
                             "error options logger splunk: %q" "B")) as ->.
  { vm_compute in Hrun. by simplify_eq. }
  destruct (StartLogging_failure_cases env_bad_config "B" info_c2 world_A _ w' Hrun)
    as [(H & _)|[(err & H & _)|[(err & H & _)|[(err & _ & _ & ->)|[(err & H & _)|(err & H & _)]]]]];
    done.
Defined.

(** ** What a successful start leaves *)

(** The steps of a start succeed on the resolved log context. *)
Lemma StartLogging_succeeds E file logCtx tj ts (w : World) :
  logs w !! file = None →
  os_MkdirAll E (filepath_Dir E (LogPath (resolve_LogPath E logCtx))) 493%Z = None →
  jsonfilelog_New E (resolve_LogPath E logCtx) = inr tj →
  ValidateLogOpt E (Config (resolve_LogPath E logCtx)) = None →
  New E (resolve_LogPath E logCtx) = inr ts →
  fifo_OpenFifo E file = None →
  StartLogging E file logCtx w = (Ok tt, (started E file logCtx tj ts w).2).
Proof.
  intros Hfile H1 H2 H3 H4 H5. unfold StartLogging. run.
  rewrite Hfile, H1. simpl. rewrite H2. simpl. rewrite H3. simpl.
  rewrite H4. simpl. rewrite H5. simpl.
  unfold started. simpl. by rewrite ContainerID_resolve.
Qed.

(** X3. After a successful start on a well-formed world, one and the same
    pair is in the stream-keyed map under the file and in the source-keyed
    map under the container id.  Its info is the given context with the
    log path defaulted to the join of /var/log/docker and the container id
    when it was empty; its loggers are the ones the two constructors
    returned for that context; its fifo and loggers are three new objects,
    all open; and exactly one message processor was launched, for this
    pair. *)
Theorem StartLogging_registers E file logCtx (w : World) (w' : World) :
  wf w →
  StartLogging E file logCtx w = (Ok tt, w') →
  ∃ lf,
    logs w' !! file = Some lf ∧
    idx w' !! ContainerID logCtx = Some lf ∧
    ContainerID (info lf) = ContainerID logCtx ∧
    Config (info lf) = Config logCtx ∧
    LogPath (info lf) =
      (if decide (LogPath logCtx = "")
       then filepath_Join E "/var/log/docker" (ContainerID logCtx)
       else LogPath logCtx) ∧
    jsonfilelog_New E (info lf) = inr (dyn_type (jsonl lf)) ∧
    New E (info lf) = inr (dyn_type (splunkl lf)) ∧
    heap w !! data (jsonl lf) = None ∧
    heap w !! data (splunkl lf) = None ∧
    heap w !! stream lf = None ∧
    heap w' !! data (jsonl lf) = Some (OLogger false) ∧
    heap w' !! data (splunkl lf) = Some (OLogger false) ∧
    heap w' !! stream lf = Some (OFifo file false) ∧
    tasks w' = tasks w ++ [TProcess lf].
Proof.
  intros (_ & _ & Hh) Hrun.
  destruct (logs w !! file) as [lf0|] eqn:Hfile.
  { by rewrite (StartLogging_Some _ _ _ lf0) in Hrun. }
  destruct (StartLogging_cases E file logCtx w Hfile)
    as [(tj & ts & Hj & Hs & Heq)|(e0 & w0 & Heq & _)];
    rewrite Heq in Hrun; [|done].
  simplify_eq.
  assert (∀ l, next w ≤ l → heap w !! l = None) as Hfresh.
  { intros l Hl. destruct (heap w !! l) as [o|] eqn:Ho; [|done].
    specialize (Hh _ _ Ho). simpl in Hh. lia. }
  exists (started E file logCtx tj ts w).1. simpl. split_and!.
  - apply lookup_insert_eq.
  - apply lookup_insert_eq.
  - apply ContainerID_resolve.
  - unfold resolve_LogPath. by case_decide.
  - unfold resolve_LogPath. by case_decide.
  - exact Hj.
  - exact Hs.
  - apply Hfresh. lia.
  - apply Hfresh. lia.
  - apply Hfresh. lia.
  - rewrite lookup_insert_ne by lia. rewrite lookup_insert_ne by lia.
    apply lookup_insert_eq.
  - rewrite lookup_insert_ne by lia. apply lookup_insert_eq.
  - apply lookup_insert_eq.
  - reflexivity.
Qed.

Lemma StartLogging_registers_witness :
  ∃ lf,
    logs world_A !! "A" = Some lf ∧
    idx world_A !! "c1" = Some lf ∧
    LogPath (info lf) = "/var/log/docker/c1" ∧
    heap world_A !! stream lf = Some (OFifo "A" false) ∧
    tasks world_A = [TProcess lf].
Proof.
  destruct (StartLogging_registers env_ok "A" info_c1 boot world_A wf_boot eq_refl)
    as (lf & H1 & H2 & _ & _ & H5 & _ & _ & _ & _ & _ & _ & _ & H13 & H14).
  exists lf. split_and!; [exact H1|exact H2|exact H5|exact H13|exact H14].
Defined.

(** ** What a call leaves alone *)

(** X4. Whatever it returns, StartLogging leaves the entries of the other
    files, the index entries of the other sources and (on a well-formed
    world) every object already on the heap as they were, and the tasks
    launched before stay in place. *)
Theorem StartLogging_frame E file logCtx (w : World) :
  wf w →
  (∀ file', file' ≠ file →
     logs (StartLogging E file logCtx w).2 !! file' = logs w !! file') ∧
  (∀ c, c ≠ ContainerID logCtx →
     idx (StartLogging E file logCtx w).2 !! c = idx w !! c) ∧
  (∀ l o, heap w !! l = Some o →
     heap (StartLogging E file logCtx w).2 !! l = Some o) ∧
  (∃ ts, tasks (StartLogging E file logCtx w).2 = tasks w ++ ts).
Proof.
  intros (_ & _ & Hh).
  destruct (logs w !! file) as [lf0|] eqn:Hfile.
  { rewrite (StartLogging_Some _ _ _ lf0) by done. simpl.
    split_and!; try done. exists []. by rewrite app_nil_r. }
  destruct (StartLogging_cases E file logCtx w Hfile)
    as [(tj & ts & _ & _ & ->)|(e0 & w0 & -> & HL & HI & HT & _ & Hheap)]; simpl.
  - split_and!.
    + intros file' Hne. by rewrite lookup_insert_ne.
    + intros c Hne. by rewrite lookup_insert_ne.
    + intros l o Ho. pose proof (Hh _ _ Ho) as Hlt. simpl in Hlt.
      by rewrite !lookup_insert_ne by lia.
    + eauto.
  - split_and!.
    + intros file' _. by rewrite HL.
    + intros c _. by rewrite HI.
    + intros l o Ho. destruct (Hheap l) as [Heq|[Hr _]]; [by rewrite Heq|].
      specialize (Hh _ _ Ho). simpl in Hh. lia.
    + exists []. by rewrite app_nil_r.
Qed.

Lemma StartLogging_frame_witness :
  logs (StartLogging env_ok "B" info_c2 world_A).2 !! "A" = logs world_A !! "A" ∧
  idx (StartLogging env_ok "B" info_c2 world_A).2 !! "c1" = idx world_A !! "c1" ∧
  heap (StartLogging env_ok "B" info_c2 world_A).2 !! 2 = Some (OFifo "A" false).
Proof.
  assert (wf world_A) as Hwf by (apply wf_StartLogging, wf_boot).
  destruct (StartLogging_frame env_ok "B" info_c2 world_A Hwf) as (H1 & H2 & H3 & _).
  split_and!.
  - by apply H1.
  - by apply H2.
  - by apply H3.
Defined.

(** X5. StopLogging closes nothing but the fifo of the pair it removes:
    the entries of the other files stay, the other registered pairs keep
    their fifos open, loggers and pipes are untouched (the pair's two
    loggers are not closed), and no task is launched or removed. *)
Theorem StopLogging_frame file (w : World) :
  wf w →
  (∀ file', file' ≠ file →
     logs (StopLogging file w).2 !! file' = logs w !! file') ∧
  (∀ file' lf', file' ≠ file → logs w !! file' = Some lf' →
     heap (StopLogging file w).2 !! stream lf' = Some (OFifo file' false)) ∧
  (∀ l o, heap w !! l = Some o → (∀ f c, o ≠ OFifo f c) →
     heap (StopLogging file w).2 !! l = Some o) ∧
  tasks (StopLogging file w).2 = tasks w.
Proof.
  intros (Hl & _ & _).
  destruct (logs w !! file) as [lf|] eqn:Hfile.
  2: { rewrite StopLogging_None by done. split_and!; try done.
       intros file' lf' _ Hf. by destruct (Hl _ _ Hf). }
  rewrite (StopLogging_Some _ lf) by done. simpl.
  destruct (Hl _ _ Hfile) as [Hs _]. simpl in Hs. split_and!.
  - intros file' Hne. by rewrite lookup_delete_ne.
  - intros file' lf' Hne Hf. destruct (Hl _ _ Hf) as [Hs' _]. simpl in Hs'.
    rewrite lookup_alter_ne; [done|]. intros Heq. rewrite Heq in Hs. congruence.
  - intros l o Ho Hnf. rewrite lookup_alter. case_decide; [|done].
    subst l. rewrite Ho. simpl. destruct o; try done. by destruct (Hnf file0 closed).
  - done.
Qed.

Lemma StopLogging_frame_witness :
  logs (StopLogging "B" (StartLogging env_ok "B" info_c2 world_A).2).2 !! "A" =
    logs (StartLogging env_ok "B" info_c2 world_A).2 !! "A" ∧
  heap (StopLogging "B" (StartLogging env_ok "B" info_c2 world_A).2).2 !! 2 =
    Some (OFifo "A" false) ∧
  heap (StopLogging "B" (StartLogging env_ok "B" info_c2 world_A).2).2 !! 4 =
    Some (OLogger false).
Proof.
  assert (wf (StartLogging env_ok "B" info_c2 world_A).2) as Hwf
    by (apply wf_StartLogging, wf_StartLogging, wf_boot).
  destruct (StopLogging_frame "B" _ Hwf) as (H1 & H2 & H3 & _).
  split_and!.
  - by apply H1.
  - apply (H2 "A" (started env_ok "A" info_c1 (mkLoggerType true) (mkLoggerType false) boot).1);
      [done|reflexivity].
  - by apply H3.
Defined.

(** ** How the operations compose *)

(** X6. Stopping a file right after it was started gives back the
    stream-keyed map as it was before the start, with the pair's fifo
    closed; the pair stays in the source-keyed map, its two loggers stay
    open, and the processor launched for it stays among the tasks. *)
Theorem StartLogging_then_StopLogging E file logCtx (w : World) (w' : World) :
  StartLogging E file logCtx w = (Ok tt, w') →
  ∃ lf,
    logs w' !! file = Some lf ∧
    logs (StopLogging file w').2 = logs w ∧
    idx (StopLogging file w').2 !! ContainerID logCtx = Some lf ∧
    heap (StopLogging file w').2 !! stream lf = Some (OFifo file true) ∧
    heap (StopLogging file w').2 !! data (jsonl lf) = Some (OLogger false) ∧
    heap (StopLogging file w').2 !! data (splunkl lf) = Some (OLogger false) ∧
    tasks (StopLogging file w').2 = tasks w ++ [TProcess lf].
Proof.
  intros Hrun.
  destruct (logs w !! file) as [lf0|] eqn:Hfile.
  { by rewrite (StartLogging_Some _ _ _ lf0) in Hrun. }
  destruct (StartLogging_cases E file logCtx w Hfile)
    as [(tj & ts & _ & _ & Heq)|(e0 & w0 & Heq & _)];
    rewrite Heq in Hrun; [|done].
  simplify_eq. set (lf := (started E file logCtx tj ts w).1).
  exists lf.
  rewrite (StopLogging_Some file lf) by (simpl; apply lookup_insert_eq).
  simpl. split_and!.
  - apply lookup_insert_eq.
  - destruct w as [[lg ix] hp nx tk]. simpl in *. f_equal.
    by apply delete_insert_id.
  - apply lookup_insert_eq.
  - by rewrite lookup_alter_eq, lookup_insert_eq.
  - rewrite lookup_alter_ne by lia. rewrite lookup_insert_ne by lia.
    rewrite lookup_insert_ne by lia. apply lookup_insert_eq.
  - rewrite lookup_alter_ne by lia. rewrite lookup_insert_ne by lia.
    apply lookup_insert_eq.
  - done.
Qed.

Lemma StartLogging_then_StopLogging_witness :
  ∃ lf,
    logs world_A !! "A" = Some lf ∧
    logs (StopLogging "A" world_A).2 = logs boot ∧
    idx (StopLogging "A" world_A).2 !! "c1" = Some lf ∧
    heap (StopLogging "A" world_A).2 !! stream lf = Some (OFifo "A" true).
Proof.
  destruct (StartLogging_then_StopLogging env_ok "A" info_c1 boot world_A eq_refl)
    as (lf & H1 & H2 & H3 & H4 & _).
  exists lf. by split_and!.
Defined.

(** X7. A start that failed does not stand in the way of the next one:
    when the file was not registered and a start failed, a later start of
    the same file whose five steps succeed returns nil. *)
Theorem StartLogging_retry E E' file logCtx logCtx' tj ts (w : World) e (w' : World) :
  logs w !! file = None →
  StartLogging E file logCtx w = (Fail e, w') →
  os_MkdirAll E' (filepath_Dir E' (LogPath (resolve_LogPath E' logCtx'))) 493%Z = None →
  jsonfilelog_New E' (resolve_LogPath E' logCtx') = inr tj →
  ValidateLogOpt E' (Config (resolve_LogPath E' logCtx')) = None →
  New E' (resolve_LogPath E' logCtx') = inr ts →
  fifo_OpenFifo E' file = None →
  (StartLogging E' file logCtx' w').1 = Ok tt ∧
  is_Some (logs (StartLogging E' file logCtx' w').2 !! file).
Proof.
  intros Hfile Hrun H1 H2 H3 H4 H5.
  destruct (StartLogging_cases E file logCtx w Hfile)
    as [(tj0 & ts0 & _ & _ & Heq)|(e0 & w0 & Heq & HL & _)];
    rewrite Heq in Hrun; [done|].
  simplify_eq. rewrite <- HL in Hfile.
  rewrite (StartLogging_succeeds E' file logCtx' tj ts w') by done.
  split; [done|]. simpl. rewrite lookup_insert_eq. eauto.
Qed.

Lemma StartLogging_retry_witness :
  (StartLogging env_ok "B" info_c2 (StartLogging env_bad_config "B" info_c2 world_A).2).1 =
    Ok tt ∧
  is_Some (logs (StartLogging env_ok "B" info_c2
                   (StartLogging env_bad_config "B" info_c2 world_A).2).2 !! "B").
Proof.
  destruct (StartLogging env_bad_config "B" info_c2 world_A) as [r w'] eqn:Hrun.
  assert (∃ e, r = Fail e) as [e ->].
  { vm_compute in Hrun. simplify_eq. eauto. }
  exact (StartLogging_retry env_bad_config env_ok "B" info_c2 info_c2
           (mkLoggerType true) (mkLoggerType false) world_A e w'
           eq_refl Hrun eq_refl eq_refl eq_refl eq_refl eq_refl).
Defined.

(** X8. A stopped file can be started again: after StopLogging of a
    registered file, a start of that file whose five steps succeed returns
    nil and registers a new pair, with another address and another fifo,
    open, while the fifo of the old pair stays closed. *)
Theorem StopLogging_then_StartLogging E file logCtx tj ts lf (w : World) :
  wf w →
  logs w !! file = Some lf →
  os_MkdirAll E (filepath_Dir E (LogPath (resolve_LogPath E logCtx))) 493%Z = None →
  jsonfilelog_New E (resolve_LogPath E logCtx) = inr tj →
  ValidateLogOpt E (Config (resolve_LogPath E logCtx)) = None →
  New E (resolve_LogPath E logCtx) = inr ts →
  fifo_OpenFifo E file = None →
  ∃ lf2 w2,
    StartLogging E file logCtx (StopLogging file w).2 = (Ok tt, w2) ∧
    logs w2 !! file = Some lf2 ∧
    addr lf2 ≠ addr lf ∧
    stream lf2 ≠ stream lf ∧
    heap w2 !! stream lf2 = Some (OFifo file false) ∧
    heap w2 !! stream lf = Some (OFifo file true).
Proof.
  intros (Hl & _ & Hh) Hfile H1 H2 H3 H4 H5.
  destruct (Hl _ _ Hfile) as [Hs Ha]. simpl in Hs, Ha.
  pose proof (Hh _ _ Hs) as Hlt. simpl in Hlt.
  rewrite (StopLogging_Some _ lf) by done. simpl.
  rewrite (StartLogging_succeeds E file logCtx tj ts) by (done || apply lookup_delete_eq).
  do 2 eexists. split; [reflexivity|]. simpl. split_and!.
  - apply lookup_insert_eq.
  - simpl. lia.
  - simpl. lia.
  - apply lookup_insert_eq.
  - rewrite !lookup_insert_ne by lia. by rewrite lookup_alter_eq, Hs.
Qed.

Lemma StopLogging_then_StartLogging_witness :
  ∃ lf lf2 w2,
    logs world_A !! "A" = Some lf ∧
    StartLogging env_ok "A" info_c1 (StopLogging "A" world_A).2 = (Ok tt, w2) ∧
    logs w2 !! "A" = Some lf2 ∧
    stream lf2 ≠ stream lf ∧
    heap w2 !! stream lf = Some (OFifo "A" true).
Proof.
  assert (wf world_A) as Hwf by (apply wf_StartLogging, wf_boot).
  destruct (StopLogging_then_StartLogging env_ok "A" info_c1
              (mkLoggerType true) (mkLoggerType false)
              (started env_ok "A" info_c1 (mkLoggerType true) (mkLoggerType false) boot).1
              world_A Hwf eq_refl eq_refl eq_refl eq_refl eq_refl eq_refl)
    as (lf2 & w2 & H1 & H2 & _ & H4 & _ & H6).
  eexists _, lf2, w2. split; [reflexivity|]. by split_and!.
Defined.

(** X9. A source that was started can be read back, before and after its
    file is stopped: when the json logger built by the start is a
    LogReader, ReadLogs for that container id returns a handle and
    launches the goroutine on the json logger of the pair just
    registered. *)
Theorem StartLogging_then_ReadLogs E file logCtx info0 config
    (w : World) (w' : World) :
  StartLogging E file logCtx w = (Ok tt, w') →
  ContainerID info0 = ContainerID logCtx →
  ∃ lf,
    logs w' !! file = Some lf ∧
    jsonfilelog_New E (info lf) = inr (dyn_type (jsonl lf)) ∧
    (implements_LogReader (dyn_type (jsonl lf)) = true →
       (∃ r wr, ReadLogs info0 config w' = (Ok r, wr) ∧
                last (tasks wr) = Some (TBridge (jsonl lf) config r)) ∧
       (∃ r wr, ReadLogs info0 config (StopLogging file w').2 = (Ok r, wr) ∧
                last (tasks wr) = Some (TBridge (jsonl lf) config r))) ∧
    (implements_LogReader (dyn_type (jsonl lf)) = false →
       (ReadLogs info0 config w').1 = Fail ErrUnsupported).
Proof.
  intros Hrun Hid.
  destruct (logs w !! file) as [lf0|] eqn:Hfile.
  { by rewrite (StartLogging_Some _ _ _ lf0) in Hrun. }
  destruct (StartLogging_cases E file logCtx w Hfile)
    as [(tj & ts & Hj & _ & Heq)|(e0 & w0 & Heq & _)];
    rewrite Heq in Hrun; [|done].
  simplify_eq. set (lf := (started E file logCtx tj ts w).1).
  set (w' := (started E file logCtx tj ts w).2).
  assert (idx w' !! ContainerID info0 = Some lf) as Hidx.
  { rewrite Hid. simpl. apply lookup_insert_eq. }
  assert (idx (StopLogging file w').2 !! ContainerID info0 = Some lf) as Hidx'.
  { rewrite (StopLogging_Some file lf) by (simpl; apply lookup_insert_eq). exact Hidx. }
  exists lf. split_and!.
  - simpl. apply lookup_insert_eq.
  - exact Hj.
  - intros Hlr. split.
    + pose proof (ReadLogs_cases info0 config w') as H. rewrite Hidx in H.
      simpl in H. unfold as_LogReader in H. simpl in H. change (dyn_type (jsonl lf)) with tj in Hlr.
      rewrite Hlr in H. do 2 eexists. split; [exact H|]. simpl. apply last_snoc.
    + pose proof (ReadLogs_cases info0 config (StopLogging file w').2) as H.
      rewrite Hidx' in H.
      simpl in H. unfold as_LogReader in H. simpl in H. change (dyn_type (jsonl lf)) with tj in Hlr.
      rewrite Hlr in H. do 2 eexists. split; [exact H|]. simpl. apply last_snoc.
  - intros Hlr. pose proof (ReadLogs_cases info0 config w') as H. rewrite Hidx in H.
    simpl in H. unfold as_LogReader in H. simpl in H. change (dyn_type (jsonl lf)) with tj in Hlr.
    rewrite Hlr in H. by rewrite H.
Qed.

Lemma StartLogging_then_ReadLogs_witness :
  ∃ r wr,
    ReadLogs info_c1 cfg_all (StopLogging "A" world_A).2 = (Ok r, wr) ∧
    last (tasks wr) = Some (TBridge (mkLogger (mkLoggerType true) 0) cfg_all r).
Proof.
  destruct (StartLogging_then_ReadLogs env_ok "A" info_c1 info_c1 cfg_all boot world_A
              eq_refl eq_refl) as (lf & Hlf & _ & Hread & _).
  assert (lf = (started env_ok "A" info_c1 (mkLoggerType true) (mkLoggerType false) boot).1)
    as -> by (vm_compute in Hlf; by simplify_eq).
  destruct (Hread eq_refl) as [_ (r & wr & H1 & H2)].
  by exists r, wr.
Defined.

(** ** The source-keyed map over sequences of operations *)

(** What one operation does to the presence of a source in [idx]. *)
Lemma run_op_idx o (w : World) r (w1 : World) c :
  run_op o w = (r, w1) →
  is_Some (idx w1 !! c) ↔
    is_Some (idx w !! c) ∨
    ((∃ E file logCtx, o = OpStart E file logCtx ∧ ContainerID logCtx = c) ∧ r = Ok tt).
Proof.
  destruct o as [E f logCtx|f|info0 config]; simpl; intros Hrun.
  - destruct (logs w !! f) as [lf|] eqn:Hf.
    { rewrite (StartLogging_Some _ _ _ lf) in Hrun by done. simplify_eq.
      split; [by left|]. by intros [?|[_ ?]]. }
    destruct (StartLogging_cases E f logCtx w Hf)
      as [(tj & ts & _ & _ & Heq)|(e0 & w0 & Heq & _ & HI & _)];
      rewrite Heq in Hrun; simplify_eq; simpl.
    + rewrite lookup_insert. case_decide; simplify_eq.
      * split; [|by eauto]. intros _. right. split; [|done]. eauto.
      * split; [by left|]. intros [?|[(? & ? & ? & ? & ?) _]]; by simplify_eq.
    + rewrite HI. split; [by left|]. by intros [?|[_ ?]].
  - assert (idx w1 = idx w) as ->.
    { destruct (logs w !! f) as [lf|] eqn:Hf.
      - rewrite (StopLogging_Some _ lf) in Hrun by done. by simplify_eq.
      - rewrite StopLogging_None in Hrun by done. by simplify_eq. }
    split; [by left|]. intros [?|[(? & ? & ? & ? & ?) _]]; done.
  - destruct (ReadLogs_registry info0 config w) as [_ HI].
    unfold void in Hrun. revert Hrun. run.
    destruct (ReadLogs info0 config w) as [[x|e] w2]; simpl in *;
      intros ?; simplify_eq; rewrite HI;
      (split; [by left|]); intros [?|[(? & ? & ? & ? & ?) _]]; done.
Qed.

Lemma run_ops_idx os : ∀ (w : World) rs (w' : World) c,
  run_ops os w = (rs, w') →
  is_Some (idx w' !! c) ↔
    is_Some (idx w !! c) ∨
    ∃ (i : nat) E file logCtx,
      os !! i = Some (OpStart E file logCtx) ∧ ContainerID logCtx = c ∧
      rs !! i = Some (Ok tt).
Proof.
  induction os as [|o os IH]; intros w rs w' c; simpl.
  - intros [= <- <-]. split; [by left|].
    intros [?|(i & E & f & ctx & Hi & _)]; [done|]. by rewrite lookup_nil in Hi.
  - destruct (run_op o w) as [r w1] eqn:Hop.
    destruct (run_ops os w1) as [rs' w2] eqn:Hops. intros [= <- <-].
    rewrite (IH _ _ _ c Hops), (run_op_idx _ _ _ _ c Hop).
    split.
    + intros [[?|[(E & f & ctx & -> & Hc) ->]]|(i & E & f & ctx & Hi & Hc & Hr)].
      * by left.
      * right. by exists 0, E, f, ctx.
      * right. by exists (S i), E, f, ctx.
    + intros [?|(i & E & f & ctx & Hi & Hc & Hr)]; [by left; left|].
      destruct i as [|i]; simpl in *.
      * simplify_eq. left. right. split; [|done]. eauto.
      * right. by exists i, E, f, ctx.
Qed.

(** X10. After any sequence of calls on a new driver, a source identity
    is in the source-keyed map exactly when some start for it returned
    nil: stops never take it out again. *)
Theorem idx_grows_only os rs (w : World) c :
  run_ops os boot = (rs, w) →
  is_Some (idx w !! c) ↔
    ∃ (i : nat) E file logCtx,
      os !! i = Some (OpStart E file logCtx) ∧ ContainerID logCtx = c ∧
      rs !! i = Some (Ok tt).
Proof.
  intros Hrun. rewrite (run_ops_idx _ _ _ _ c Hrun). simpl. rewrite lookup_empty.
  split; [|by right]. intros [[? ?]|?]; done.
Qed.

Lemma idx_grows_only_witness :
  is_Some (idx (run_ops ops_demo boot).2 !! "c1") ∧
  ∃ (i : nat) E file logCtx,
    ops_demo !! i = Some (OpStart E file logCtx) ∧ ContainerID logCtx = "c1" ∧
    (run_ops ops_demo boot).1 !! i = Some (Ok tt).
Proof.
  destruct (run_ops ops_demo boot) as [rs w] eqn:Hrun.
  pose proof (idx_grows_only ops_demo rs w "c1" Hrun) as Hiff.
  assert (is_Some (idx w !! "c1")) as Hc1.
  { vm_compute in Hrun. simplify_eq. vm_compute. eauto. }
  split; [exact Hc1|]. by apply Hiff.
Defined.

(** ** Invariants of the two maps *)

Lemma indexed_started E file logCtx tj ts (w : World) :
  wf w → indexed w → indexed (started E file logCtx tj ts w).2.
Proof.
  intros (_ & _ & Hh) [Hi Hl]. split; simpl.
  - intros c lf. rewrite lookup_insert. case_decide; simplify_eq.
    + intros [= <-]. simpl. split_and!.
      * apply ContainerID_resolve.
      * rewrite !lookup_insert_ne by lia. apply lookup_insert_eq.
      * rewrite lookup_insert_ne by lia. apply lookup_insert_eq.
    + intros Hc. destruct (Hi _ _ Hc) as (H1 & H2 & H3).
      pose proof (Hh _ _ H2) as Hlt2. pose proof (Hh _ _ H3) as Hlt3.
      simpl in Hlt2, Hlt3. split; [done|].
      by rewrite !lookup_insert_ne by lia.
  - intros f lf. rewrite lookup_insert. case_decide; simplify_eq.
    + intros [= <-]. simpl. rewrite ContainerID_resolve, lookup_insert_eq. eauto.
    + intros Hf. destruct (Hl _ _ Hf) as [[lf' H1] H2]. split; [|done].
      rewrite lookup_insert. case_decide; eauto.
Qed.

Lemma indexed_run_op o (w : World) :
  wf w → indexed w → indexed (run_op o w).2.
Proof.
  intros Hwf Hidx. pose proof Hwf as (_ & _ & Hh). pose proof Hidx as [Hi Hl].
  destruct o as [E file logCtx|file|info0 config]; simpl.
  - destruct (logs w !! file) as [lf0|] eqn:Hfile.
    { by rewrite (StartLogging_Some _ _ _ lf0). }
    destruct (StartLogging_cases E file logCtx w Hfile)
      as [(tj & ts & _ & _ & ->)|(e & w' & -> & HL & HI & _ & _ & Hheap)].
    { by apply indexed_started. }
    assert (∀ l o, heap w !! l = Some o → heap w' !! l = Some o) as Hkeep.
    { intros l o Ho. destruct (Hheap l) as [Heq|[Hr _]]; [by rewrite Heq|].
      specialize (Hh _ _ Ho). simpl in Hh. lia. }
    split; simpl.
    + rewrite HI. intros c lf Hc. destruct (Hi _ _ Hc) as (H1 & H2 & H3). eauto.
    + rewrite HL, HI. apply Hl.
  - destruct (logs w !! file) as [lf|] eqn:Hfile.
    2: { by rewrite StopLogging_None. }
    rewrite (StopLogging_Some _ lf) by done. split; simpl.
    + assert (∀ l, heap w !! l = Some (OLogger false) →
                alter close_fifo (stream lf) (heap w) !! l = Some (OLogger false)) as Hk.
      { intros l Hl0. destruct (decide (stream lf = l)) as [<-|Hne].
        - by rewrite lookup_alter_eq, Hl0.
        - by rewrite lookup_alter_ne. }
      intros c lf' Hc. destruct (Hi _ _ Hc) as (H1 & H2 & H3). eauto.
    + intros f lf'. rewrite lookup_delete. case_decide; [done|]. apply Hl.
  - pose proof (ReadLogs_cases info0 config w) as H.
    unfold void. run.
    destruct (idx w !! ContainerID info0) as [lf|] eqn:Hc; [|by rewrite H].
    assert (indexed (set_next S (set_heap <[next w := OPipe (empty_pipe None)]> w))) as H1.
    { split; simpl; [|done]. intros c lf' Hc'. destruct (Hi _ _ Hc') as (H1 & H2 & H3).
      pose proof (Hh _ _ H2) as Hlt2. pose proof (Hh _ _ H3) as Hlt3.
      simpl in Hlt2, Hlt3. split; [done|]. by rewrite !lookup_insert_ne by lia. }
    simpl in H. destruct (as_LogReader (jsonl lf)); rewrite H; simpl; [|done].
    exact H1.
Qed.

Lemma indexed_run_ops os : ∀ w : World,
  wf w → indexed w → indexed (run_ops os w).2.
Proof.
  induction os as [|o os IH]; intros w Hwf Hidx; simpl; [done|].
  pose proof (wf_run_op o w Hwf) as H1.
  pose proof (indexed_run_op o w Hwf Hidx) as H2.
  destruct (run_op o w) as [r w1]. specialize (IH w1 H1 H2).
  by destruct (run_ops os w1).
Qed.

(** X11. After any sequence of calls on a new driver: every index entry
    is filed under the container id of its pair, and that pair's json and
    splunk loggers are still open (nothing in the driver closes a logger,
    not even a stop); the source of every registered pair is indexed; and
    two files that are registered have different pairs with different
    fifos. *)
Theorem registry_consistent os rs (w : World) :
  run_ops os boot = (rs, w) →
  (∀ c lf, idx w !! c = Some lf →
     ContainerID (info lf) = c ∧
     heap w !! data (jsonl lf) = Some (OLogger false) ∧
     heap w !! data (splunkl lf) = Some (OLogger false)) ∧
  (∀ f lf, logs w !! f = Some lf → is_Some (idx w !! ContainerID (info lf))) ∧
  (∀ f1 f2 lf1 lf2, f1 ≠ f2 →
     logs w !! f1 = Some lf1 → logs w !! f2 = Some lf2 →
     stream lf1 ≠ stream lf2 ∧ addr lf1 ≠ addr lf2).
Proof.
  intros Hrun.
  assert (indexed boot) as H0.
  { split; intros ? ?; simpl; by rewrite lookup_empty. }
  pose proof (wf_run_ops os boot wf_boot) as (Hl & _ & _).
  pose proof (indexed_run_ops os boot wf_boot H0) as [Hi Hl'].
  rewrite Hrun in *. simpl in *. split_and!.
  - exact Hi.
  - intros f lf Hf. by destruct (Hl' _ _ Hf).
  - intros f1 f2 lf1 lf2 Hne H1 H2.
    destruct (Hl _ _ H1) as [Hs1 _]. destruct (Hl _ _ H2) as [Hs2 _].
    destruct (Hl' _ _ H1) as [_ Ha1]. destruct (Hl' _ _ H2) as [_ Ha2].
    simpl in *.
    assert (stream lf1 ≠ stream lf2) as Hst.
    { intros Heq. rewrite Heq in Hs1. congruence. }
    split; [done|]. lia.
Qed.

Lemma registry_consistent_witness :
  (∀ c lf, idx (run_ops ops_demo boot).2 !! c = Some lf →
     ContainerID (info lf) = c ∧
     heap (run_ops ops_demo boot).2 !! data (jsonl lf) = Some (OLogger false) ∧
     heap (run_ops ops_demo boot).2 !! data (splunkl lf) = Some (OLogger false)) ∧
  (∀ f lf, logs (run_ops ops_demo boot).2 !! f = Some lf →
     is_Some (idx (run_ops ops_demo boot).2 !! ContainerID (info lf))).
Proof.
  destruct (run_ops ops_demo boot) as [rs w] eqn:Hrun.
  destruct (registry_consistent ops_demo rs w Hrun) as (H1 & H2 & _).
  by split.
Defined.

(** ** Goroutines *)

(** X12. A goroutine is launched only by a call that returns nil, one per
    call: a start launches the message processor of the pair it
    registered, a read launches the re-encoding goroutine on the json
    logger of the pair indexed for the source; a call that fails and a
    stop launch nothing, and no task is ever taken away. *)
Theorem run_op_tasks o (w : World) r (w1 : World) :
  run_op o w = (r, w1) →
  match o, r with
  | OpStart _ file _, Ok _ =>
      ∃ lf, logs w1 !! file = Some lf ∧ tasks w1 = tasks w ++ [TProcess lf]
  | OpRead info0 config, Ok _ =>
      ∃ lf rw, idx w !! ContainerID info0 = Some lf ∧
               heap w1 !! rw = Some (OPipe (empty_pipe None)) ∧
               tasks w1 = tasks w ++ [TBridge (jsonl lf) config rw]
  | _, _ => tasks w1 = tasks w
  end.
Proof.
  destruct o as [E f logCtx|f|info0 config]; simpl; intros Hrun.
  - destruct (logs w !! f) as [lf|] eqn:Hf.
    { rewrite (StartLogging_Some _ _ _ lf) in Hrun by done. by simplify_eq. }
    destruct (StartLogging_cases E f logCtx w Hf)
      as [(tj & ts & _ & _ & Heq)|(e0 & w0 & Heq & _ & _ & HT & _)];
      rewrite Heq in Hrun; simplify_eq; [|done].
    eexists. split; [|reflexivity]. simpl. apply lookup_insert_eq.
  - destruct (logs w !! f) as [lf|] eqn:Hf.
    + rewrite (StopLogging_Some _ lf) in Hrun by done. by simplify_eq.
    + rewrite StopLogging_None in Hrun by done. by simplify_eq.
  - pose proof (ReadLogs_cases info0 config w) as H.
    unfold void in Hrun. revert Hrun. run.
    destruct (idx w !! ContainerID info0) as [lf|] eqn:Hc.
    2: { rewrite H. simpl. intros ?. by simplify_eq. }
    simpl in H. destruct (as_LogReader (jsonl lf)); rewrite H; simpl;
      intros ?; simplify_eq; [|done].
    exists lf, (next w). split; [done|]. split; [|done].
    simpl. apply lookup_insert_eq.
Qed.

Lemma run_op_tasks_witness :
  tasks (run_op (OpStart env_bad_config "B" info_c2) world_A).2 = tasks world_A ∧
  ∃ lf rw,
    idx world_A !! "c1" = Some lf ∧
    tasks (run_op (OpRead info_c1 cfg_all) world_A).2 =
      tasks world_A ++ [TBridge (jsonl lf) cfg_all rw].
Proof.
  split.
  - destruct (run_op (OpStart env_bad_config "B" info_c2) world_A) as [r w1] eqn:Hrun.
    pose proof (run_op_tasks _ _ _ _ Hrun) as H. simpl in H.
    assert (∃ e, r = Fail e) as [e ->] by (vm_compute in Hrun; simplify_eq; eauto).
    exact H.
  - destruct (run_op (OpRead info_c1 cfg_all) world_A) as [r w1] eqn:Hrun.
    pose proof (run_op_tasks _ _ _ _ Hrun) as H. simpl in H.
    assert (r = Ok tt) as -> by (vm_compute in Hrun; by simplify_eq).
    destruct H as (lf & rw & H1 & _ & H3). by exists lf, rw.
Defined.

(** ** The goroutine under any reader *)

Lemma take_take_app {A} (l1 l2 : list A) j1 j2 :
  j1 ≤ length l1 → (j1 < length l1 → j2 = 0) →
  take j1 l1 ++ take j2 l2 = take (j1 + j2) (l1 ++ l2).
Proof.
  intros Hle Hz. destruct (decide (j1 = length l1)) as [->|Hne].
  - by rewrite take_ge, take_app_add by lia.
  - rewrite Hz by lia. rewrite take_0, app_nil_r, Nat.add_0_r.
    by rewrite take_app_le by lia.
Qed.

(** One write: some prefix of the data reaches the reading side, all of
    it when the write returns nil; when it fails on an open pipe the
    reading side has taken all it was going to take. *)
Lemma Write_budget data p p' r :
  Write data p = (p', r) →
  ∃ j, j ≤ length data ∧
    delivered p' = delivered p ++ take j data ∧
    werr p' = werr p ∧
    reader_budget p' = (λ n, n - j) <$> reader_budget p ∧
    (∀ n, reader_budget p = Some n → j ≤ n) ∧
    (r = None → j = length data) ∧
    (r ≠ None → werr p = None →
       r = Some ErrClosedPipe ∧ reader_budget p = Some j).
Proof.
  unfold Write. destruct (werr p) as [e|] eqn:Hw.
  { intros [= <- <-]. exists 0. rewrite take_0, app_nil_r.
    split_and!; try done; try lia.
    destruct (reader_budget p); simpl; [f_equal; lia|done]. }
  destruct (reader_budget p) as [[|k]|] eqn:Hb.
  - intros [= <- <-]. exists 0. rewrite take_0, app_nil_r, Hb.
    split_and!; try done; lia.
  - destruct (length data <=? S k) eqn:Hlen.
    + apply Nat.leb_le in Hlen. intros [= <- <-]. exists (length data).
      rewrite take_ge by lia. simpl. split_and!; try done;
        intros n [= <-]; lia.
    + apply Nat.leb_gt in Hlen. intros [= <- <-]. exists (S k). simpl.
      split_and!; try done; try lia.
      * f_equal. lia.
      * intros n [= <-]. lia.
  - intros [= <- <-]. exists (length data). rewrite take_ge by lia.
    simpl. rewrite Hb. by split_and!.
Qed.

Lemma WriteMsg_budget Marshal e p p' r :
  WriteMsg Marshal e p = (p', r) →
  ∃ j, j ≤ length (frame Marshal e) ∧
    delivered p' = delivered p ++ take j (frame Marshal e) ∧
    werr p' = werr p ∧
    reader_budget p' = (λ n, n - j) <$> reader_budget p ∧
    (∀ n, reader_budget p = Some n → j ≤ n) ∧
    (r = None → j = length (frame Marshal e)) ∧
    (r ≠ None → werr p = None →
       r = Some ErrClosedPipe ∧ reader_budget p = Some j).
Proof.
  unfold WriteMsg, frame.
  set (hdr := PutUint32 (Z.of_nat (length (Marshal e)) mod 2 ^ 32)).
  assert (length hdr = 4) as Hlen4 by done.
  destruct (Write hdr p) as [p1 r1] eqn:H1.
  apply Write_budget in H1 as (j1 & Hj1 & Hd1 & Hw1 & Hb1 & Hn1 & Hok1 & Hf1).
  destruct r1 as [err|].
  - intros [= <- <-]. exists j1. rewrite length_app.
    split_and!; try done; try lia.
    rewrite Hd1. f_equal. by rewrite take_app_le.
  - specialize (Hok1 eq_refl). subst j1. rewrite take_ge in Hd1 by lia.
    intros H2.
    apply Write_budget in H2 as (j2 & Hj2 & Hd2 & Hw2 & Hb2 & Hn2 & Hok2 & Hf2).
    exists (length hdr + j2). rewrite length_app. split_and!.
    + lia.
    + by rewrite Hd2, Hd1, <- app_assoc, take_app_add.
    + congruence.
    + rewrite Hb2, Hb1. destruct (reader_budget p); simpl; [f_equal; lia|done].
    + intros n Hn. specialize (Hn1 n Hn). rewrite Hb1, Hn in Hn2. simpl in Hn2.
      specialize (Hn2 _ eq_refl). lia.
    + intros Hr. specialize (Hok2 Hr). lia.
    + intros Hr Hw. rewrite Hw1 in Hf2. destruct (Hf2 Hr Hw) as [-> Hb].
      split; [done|]. rewrite Hb1 in Hb. destruct (reader_budget p) as [n|] eqn:Hn; [|done].
      simpl in Hb. specialize (Hn1 n eq_refl). f_equal. simplify_eq. lia.
Qed.

(** The loop on an open pipe: a prefix of the frames of the messages
    received reaches the reading side, never more than it is willing to
    take; either all of them do, and the loop waits or ends as the feed
    says, or a write fails, the reading side having taken exactly what it
    was going to take, and the pipe is closed with the error of the write. *)
Lemma delivered_Close p : delivered (Close p) = delivered p.
Proof. unfold Close, CloseWithError. by destruct (werr p). Qed.

Lemma bridge_loop_budget Marshal evs : ∀ b st b',
  werr (pipe b) = None →
  bridge_loop Marshal evs b = (st, b') →
  ∃ k, k ≤ length (frames Marshal (map entry_of (received evs))) ∧
    delivered (pipe b') =
      delivered (pipe b) ++ take k (frames Marshal (map entry_of (received evs))) ∧
    watcher_closed b' = watcher_closed b ∧
    (∀ n, reader_budget (pipe b) = Some n → k ≤ n) ∧
    ((k = length (frames Marshal (map entry_of (received evs))) ∧
      match terminal evs with
      | None => st = Waiting ∧ werr (pipe b') = None
      | Some (EndErr err) => st = Returned ∧ werr (pipe b') = Some (default EOF err)
      | Some EndClosed => st = Returned ∧ werr (pipe b') = Some EOF
      end) ∨
     (st = Returned ∧ werr (pipe b') = Some ErrClosedPipe ∧
      reader_budget (pipe b) = Some k)).
Proof.
  induction evs as [|[msg| |err] evs IH]; intros b st b' Hopen;
    cbn [received terminal map bridge_loop].
  - intros [= <- <-]. exists 0. rewrite app_nil_r. split_and!; try done; try lia.
    by left.
  - match goal with |- context [WriteMsg Marshal ?e ?p] =>
      change (WriteMsg Marshal e p) with (WriteMsg Marshal (entry_of msg) (pipe b)) end.
    rewrite frames_cons, length_app.
    destruct (WriteMsg Marshal (entry_of msg) (pipe b)) as [p1 r] eqn:Hw.
    apply WriteMsg_budget in Hw as (j & Hj & Hd & Hw1 & Hb & Hn & Hok & Hfail).
    destruct r as [werr0|].
    + intros [= <- <-]. destruct (Hfail ltac:(done) Hopen) as [[= ->] Hbud].
      exists j. cbn [pipe set_pipe watcher_closed buf set_buf]. split_and!; [lia| |done|done|].
      * unfold CloseWithError. rewrite Hw1, Hopen. cbn [delivered set_werr]. rewrite Hd. f_equal.
        by rewrite take_app_le.
      * right. split; [done|]. split; [|done].
        unfold CloseWithError. by rewrite Hw1, Hopen.
    + specialize (Hok eq_refl). subst j. intros Hloop.
      apply IH in Hloop as (k & Hk & Hd' & Hc & Hn' & Hcase);
        [|cbn [pipe set_pipe set_buf]; congruence].
      cbn [pipe set_pipe watcher_closed buf set_buf] in Hd', Hc, Hn', Hcase.
      exists (length (frame Marshal (entry_of msg)) + k). split_and!.
      * lia.
      * rewrite Hd', Hd, take_ge, <- app_assoc by lia. f_equal.
        by rewrite take_app_add.
      * done.
      * intros n Hbn. specialize (Hn n Hbn). rewrite Hb, Hbn in Hn'. cbn [fmap option_fmap option_map] in Hn'.
        specialize (Hn' _ eq_refl). lia.
      * destruct Hcase as [[-> Hterm]|(-> & Hwe & Hbk)]; [by left|].
        right. split; [done|]. split; [done|].
        rewrite Hb in Hbk. destruct (reader_budget (pipe b)) as [n|] eqn:Hbn; [|done].
        cbn [fmap option_fmap option_map] in Hbk. specialize (Hn n eq_refl). f_equal. simplify_eq. lia.
  - intros [= <- <-]. exists 0. rewrite app_nil_r.
    cbn [pipe set_pipe watcher_closed length frames map concat].
    split_and!; try done; try lia.
    + by rewrite delivered_Close.
    + left. split; [done|]. split; [done|].
      unfold Close, CloseWithError. by rewrite Hopen.
  - intros [= <- <-]. exists 0. rewrite app_nil_r.
    cbn [pipe set_pipe watcher_closed length frames map concat].
    split_and!; try done; try lia.
    + unfold CloseWithError. by rewrite Hopen.
    + left. split; [done|]. split; [done|].
      unfold CloseWithError. by rewrite Hopen.
Qed.

(** On a pipe whose writing side is already closed nothing is delivered. *)
Lemma bridge_loop_closed Marshal evs b st b' e :
  werr (pipe b) = Some e →
  bridge_loop Marshal evs b = (st, b') →
  delivered (pipe b') = delivered (pipe b).
Proof.
  intros Hclosed. destruct evs as [|[msg| |err] evs]; cbn [bridge_loop].
  - by intros [= <- <-].
  - unfold WriteMsg, Write. simpl. rewrite Hclosed.
    intros [= <- <-]. simpl. unfold CloseWithError. by rewrite Hclosed.
  - intros [= <- <-]. simpl. unfold Close, CloseWithError. by rewrite Hclosed.
  - intros [= <- <-]. simpl. unfold CloseWithError. by rewrite Hclosed.
Qed.


(** X13. Whatever the feed and whatever the reading side does, what
    reaches the reading side is what was there followed by a prefix of the
    frames of the messages received, in order: never a byte that is not of
    these frames, never more than the reading side is willing to take. *)
Theorem bridge_delivers_prefix Marshal evs p :
  ∃ k, k ≤ length (frames Marshal (map entry_of (received evs))) ∧
    delivered (pipe (bridge Marshal evs p).2) =
      delivered p ++ take k (frames Marshal (map entry_of (received evs))) ∧
    ∀ n, reader_budget p = Some n → k ≤ n.
Proof.
  unfold bridge.
  set (b0 := {| pipe := p; watcher_closed := false; buf := logdriver.Reset |}).
  destruct (bridge_loop Marshal evs b0) as [st b'] eqn:Hloop.
  assert (delivered (pipe (match st with
                           | Returned => (Returned, set_pipe Close (set_watcher_closed true b'))
                           | Waiting => (Waiting, b')
                           end).2) = delivered (pipe b')) as ->.
  { destruct st; [done|]. simpl. apply delivered_Close. }
  destruct (werr p) as [e|] eqn:Hw.
  - exists 0. rewrite take_0, app_nil_r. split; [lia|]. split; [|lia].
    by apply (bridge_loop_closed Marshal evs b0 st b' e).
  - destruct (bridge_loop_budget Marshal evs b0 st b' Hw Hloop)
      as (k & Hk & Hd & _ & Hn & _).
    exists k. by split_and!.
Qed.

(** X14. When the reading side closes before it has taken all the frames
    of the messages received, the goroutine returns: the reading side has
    exactly the bytes it took, the writing side is closed with the error
    of the failed write, and watcher.Close() has run. *)
Theorem bridge_reader_closes Marshal evs p n :
  werr p = None →
  reader_budget p = Some n →
  n < length (frames Marshal (map entry_of (received evs))) →
  (bridge Marshal evs p).1 = Returned ∧
  delivered (pipe (bridge Marshal evs p).2) =
    delivered p ++ take n (frames Marshal (map entry_of (received evs))) ∧
  werr (pipe (bridge Marshal evs p).2) = Some ErrClosedPipe ∧
  watcher_closed (bridge Marshal evs p).2 = true.
Proof.
  intros Hw Hb Hlt. unfold bridge.
  set (b0 := {| pipe := p; watcher_closed := false; buf := logdriver.Reset |}).
  destruct (bridge_loop Marshal evs b0) as [st b'] eqn:Hloop.
  destruct (bridge_loop_budget Marshal evs b0 st b' Hw Hloop)
    as (k & Hk & Hd & _ & Hn & [[-> _]|(-> & Hwe & Hbk)]).
  { specialize (Hn n Hb). lia. }
  simpl in Hbk. rewrite Hb in Hbk. simplify_eq. simpl.
  split_and!; [done| |unfold Close, CloseWithError; by rewrite Hwe|done].
  by rewrite delivered_Close.
Qed.

Lemma bridge_reader_closes_witness :
  (bridge proto.Marshal feed_clean (empty_pipe (Some 40))).1 = Returned ∧
  delivered (pipe (bridge proto.Marshal feed_clean (empty_pipe (Some 40))).2) =
    take 40 (frames proto.Marshal (map entry_of (received feed_clean))) ∧
  werr (pipe (bridge proto.Marshal feed_clean (empty_pipe (Some 40))).2) =
    Some ErrClosedPipe ∧
  watcher_closed (bridge proto.Marshal feed_clean (empty_pipe (Some 40))).2 = true.
Proof.
  apply (bridge_reader_closes proto.Marshal feed_clean (empty_pipe (Some 40)) 40).
  - reflexivity.
  - reflexivity.
  - vm_compute. lia.
Defined.

(** The loop on a feed given in two parts. *)
Lemma bridge_loop_app Marshal evs more : ∀ b st b',
  bridge_loop Marshal evs b = (st, b') →
  buf b = logdriver.Reset →
  match st with
  | Returned => bridge_loop Marshal (evs ++ more) b = (Returned, b')
  | Waiting =>
      buf b' = logdriver.Reset ∧ watcher_closed b' = watcher_closed b ∧
      bridge_loop Marshal (evs ++ more) b = bridge_loop Marshal more b'
  end.
Proof.
  induction evs as [|[msg| |err] evs IH]; intros b st b'; cbn [app bridge_loop].
  - by intros [= <- <-].
  - destruct (WriteMsg Marshal _ _) as [p1 [werr0|]].
    + by intros [= <- <-].
    + intros Hloop _. apply IH in Hloop; [|done]. by destruct st.
  - by intros [= <- <-].
  - by intros [= <- <-].
Qed.

(** X15. Once the goroutine has returned it reads nothing more from the
    feed: later events change nothing.  While it is still waiting, what
    it goes on to do with more events is what a goroutine started on the
    pipe as it stands would do with them: a feed may come in any number
    of parts. *)
Theorem bridge_app Marshal evs more p :
  match (bridge Marshal evs p).1 with
  | Returned => bridge Marshal (evs ++ more) p = bridge Marshal evs p
  | Waiting =>
      bridge Marshal (evs ++ more) p =
        bridge Marshal more (pipe (bridge Marshal evs p).2)
  end.
Proof.
  unfold bridge.
  set (b0 := {| pipe := p; watcher_closed := false; buf := logdriver.Reset |}).
  destruct (bridge_loop Marshal evs b0) as [st b'] eqn:Hloop.
  pose proof (bridge_loop_app Marshal evs more b0 st b' Hloop eq_refl) as H.
  destruct st; simpl.
  - destruct H as (Hbuf & Hc & ->). destruct b' as [p' c' buf']. simpl in *.
    by subst.
  - by rewrite H.
Qed.

(** ** The window between the check and the registration *)

(** StartLogging is its three steps run one after the other: the check
    under the lock, the preparation without it, the registration under
    the lock again. *)
Lemma StartLogging_steps E file logCtx (w : World) :
  StartLogging E file logCtx w =
    (StartLogging_check file;; StartLogging_finish E file logCtx) w.
Proof.
  unfold StartLogging, StartLogging_check, StartLogging_finish,
    StartLogging_prepare, StartLogging_register. run.
  destruct (logs w !! file) as [lf|]; simpl; [done|].
  destruct (os_MkdirAll E _ _) as [e1|]; simpl; [done|].
  destruct (jsonfilelog_New E _) as [e2|tj]; simpl; [done|].
  destruct (ValidateLogOpt E _) as [e3|]; simpl; [done|].
  destruct (New E _) as [e4|ts]; simpl; [done|].
  by destruct (fifo_OpenFifo E _) as [e5|].
Qed.

(** The last two steps, when the delegated steps succeed. *)
Lemma prepare_register_succeeds E file logCtx tj ts (w : World) :
  steps_succeed E file logCtx tj ts →
  StartLogging_finish E file logCtx w =
    (Ok tt, (started E file logCtx tj ts w).2).
Proof.
  intros (H1 & H2 & H3 & H4 & H5).
  unfold StartLogging_finish, StartLogging_prepare, StartLogging_register. run.
  rewrite H1. simpl. rewrite H2. simpl. rewrite H3. simpl.
  rewrite H4. simpl. rewrite H5. simpl.
  unfold started. simpl. by rewrite ContainerID_resolve.
Qed.

(** X16. The duplicate check and the registration are two critical
    sections.  When two starts of the same unregistered file both pass
    the check before either registers, both return nil (one after the
    other, the second would fail): two message processors run for the
    file, the stream-keyed map holds the pair registered last, and the
    fifo of the other pair is open but is the stream of no registered
    pair, so that StopLogging of the file does not close it. *)
Theorem racing_starts_both_succeed E1 E2 file logCtx1 logCtx2 tj1 ts1 tj2 ts2
    (w : World) :
  wf w →
  logs w !! file = None →
  steps_succeed E1 file logCtx1 tj1 ts1 →
  steps_succeed E2 file logCtx2 tj2 ts2 →
  ∃ lf1 lf2 w',
    racing_starts E1 E2 file logCtx1 logCtx2 w = (Ok tt, w') ∧
    (StartLogging E2 file logCtx2 (StartLogging E1 file logCtx1 w).2).1 =
      Fail (ErrAlreadyExists file) ∧
    tasks w' = tasks w ++ [TProcess lf1; TProcess lf2] ∧
    logs w' !! file = Some lf2 ∧
    heap w' !! stream lf1 = Some (OFifo file false) ∧
    heap w' !! stream lf2 = Some (OFifo file false) ∧
    (∀ f lf, logs w' !! f = Some lf → stream lf ≠ stream lf1) ∧
    heap (StopLogging file w').2 !! stream lf1 = Some (OFifo file false).
Proof.
  intros (Hl & _ & Hh) Hfile Hs1 Hs2.
  set (w1 := (started E1 file logCtx1 tj1 ts1 w).2).
  set (lf1 := (started E1 file logCtx1 tj1 ts1 w).1).
  set (w2 := (started E2 file logCtx2 tj2 ts2 w1).2).
  set (lf2 := (started E2 file logCtx2 tj2 ts2 w1).1).
  assert (racing_starts E1 E2 file logCtx1 logCtx2 w = (Ok tt, w2)) as Hrace.
  { assert (StartLogging_check file w = (Ok tt, w)) as Hcheck.
    { unfold StartLogging_check. run. by rewrite Hfile. }
    unfold racing_starts, mbind, M_bind. rewrite Hcheck, Hcheck.
    rewrite (prepare_register_succeeds E1 file logCtx1 tj1 ts1) by done.
    by rewrite (prepare_register_succeeds E2 file logCtx2 tj2 ts2). }
  exists lf1, lf2, w2. split; [exact Hrace|].
  destruct Hs1 as (A1 & A2 & A3 & A4 & A5).
  split_and!.
  - rewrite (StartLogging_succeeds E1 file logCtx1 tj1 ts1) by done.
    fold w1. simpl.
    by rewrite (StartLogging_Some E2 file logCtx2 lf1) by apply lookup_insert_eq.
  - simpl. by rewrite <- app_assoc.
  - simpl. apply lookup_insert_eq.
  - simpl. rewrite !lookup_insert_ne by lia. apply lookup_insert_eq.
  - simpl. apply lookup_insert_eq.
  - intros f lf. simpl. rewrite lookup_insert. case_decide; simplify_eq.
    + intros [= <-]. simpl. lia.
    + rewrite lookup_insert_ne by done. intros Hf.
      destruct (Hl _ _ Hf) as [Hs _]. simpl in Hs.
      specialize (Hh _ _ Hs). simpl in Hh. lia.
  - rewrite (StopLogging_Some file lf2) by (simpl; apply lookup_insert_eq).
    simpl. rewrite lookup_alter_ne by lia.
    rewrite !lookup_insert_ne by lia. apply lookup_insert_eq.
Qed.

Lemma racing_starts_both_succeed_witness :
  ∃ lf1 lf2 w',
    racing_starts env_ok env_ok "A" info_c1 info_c1 boot = (Ok tt, w') ∧
    tasks w' = [TProcess lf1; TProcess lf2] ∧
    logs w' !! "A" = Some lf2 ∧
    heap (StopLogging "A" w').2 !! stream lf1 = Some (OFifo "A" false).
Proof.
  destruct (racing_starts_both_succeed env_ok env_ok "A" info_c1 info_c1
              (mkLoggerType true) (mkLoggerType false)
              (mkLoggerType true) (mkLoggerType false) boot wf_boot eq_refl)
    as (lf1 & lf2 & w' & H1 & _ & H3 & H4 & _ & _ & _ & H8).
  - by split_and!.
  - by split_and!.
  - by exists lf1, lf2, w'.
Defined.

Lemma unregistered_run_op o (w : World) l f :
  wf w →
  heap w !! l = Some (OFifo f false) →
  (∀ f' lf', logs w !! f' = Some lf' → stream lf' ≠ l) →
  heap (run_op o w).2 !! l = Some (OFifo f false) ∧
  (∀ f' lf', logs (run_op o w).2 !! f' = Some lf' → stream lf' ≠ l).
Proof.
  intros (Hl & _ & Hh) Hopen Hfree.
  pose proof (Hh _ _ Hopen) as Hlt. simpl in Hlt.
  destruct o as [E file logCtx|file|info0 config]; simpl.
  - destruct (logs w !! file) as [lf0|] eqn:Hfile.
    { by rewrite (StartLogging_Some _ _ _ lf0). }
    destruct (StartLogging_cases E file logCtx w Hfile)
      as [(tj & ts & _ & _ & ->)|(e & w' & -> & HL & _ & _ & _ & Hheap)]; simpl.
    + split; [by rewrite !lookup_insert_ne by lia|].
      intros f' lf'. rewrite lookup_insert. case_decide; simplify_eq.
      * intros [= <-]. simpl. lia.
      * apply Hfree.
    + split; [|by rewrite HL].
      destruct (Hheap l) as [Heq|[Hr _]]; [by rewrite Heq|lia].
  - destruct (logs w !! file) as [lf|] eqn:Hfile.
    2: { by rewrite StopLogging_None. }
    rewrite (StopLogging_Some _ lf) by done. simpl. split.
    + rewrite lookup_alter_ne; [done|]. by apply (Hfree file).
    + intros f' lf'. rewrite lookup_delete. case_decide; [done|]. apply Hfree.
  - pose proof (ReadLogs_cases info0 config w) as H.
    unfold void. run.
    destruct (idx w !! ContainerID info0) as [lf|]; [|by rewrite H].
    simpl in H. destruct (as_LogReader (jsonl lf)); rewrite H; simpl;
      (split; [by rewrite lookup_insert_ne by lia|done]).
Qed.

(** X17. StopLogging is the only thing that closes a fifo, and it finds
    the fifo through the stream-keyed map: an open fifo that is the
    stream of no registered pair is still open after any sequence of
    starts, stops and reads. *)
Theorem unregistered_fifo_stays_open os : ∀ (w : World) l f,
  wf w →
  heap w !! l = Some (OFifo f false) →
  (∀ f' lf', logs w !! f' = Some lf' → stream lf' ≠ l) →
  heap (run_ops os w).2 !! l = Some (OFifo f false).
Proof.
  induction os as [|o os IH]; intros w l f Hwf Hopen Hfree; simpl; [done|].
  pose proof (wf_run_op o w Hwf) as Hwf1.
  destruct (unregistered_run_op o w l f Hwf Hopen Hfree) as [Hopen1 Hfree1].
  destruct (run_op o w) as [r w1]. simpl in *.
  specialize (IH w1 l f Hwf1 Hopen1 Hfree1).
  by destruct (run_ops os w1).
Qed.

(** The fifo left behind by two racing starts of "A" (at address 2)
    survives the walk-through, which stops "A" twice. *)
Lemma unregistered_fifo_stays_open_witness :
  heap (run_ops ops_demo
          (racing_starts env_ok env_ok "A" info_c1 info_c1 boot).2).2 !! 2 =
    Some (OFifo "A" false).
Proof.
  set (w1 := (started env_ok "A" info_c1 (mkLoggerType true) (mkLoggerType false) boot).2).
  set (w2 := (started env_ok "A" info_c1 (mkLoggerType true) (mkLoggerType false) w1).2).
  change (racing_starts env_ok env_ok "A" info_c1 info_c1 boot).2 with w2.
  apply unregistered_fifo_stays_open.
  - apply wf_started, wf_started, wf_boot.
  - reflexivity.
  - intros f' lf'. simpl. rewrite lookup_insert. case_decide.
    + intros [= <-]. simpl. lia.
    + rewrite lookup_insert. case_decide; [done|]. by rewrite lookup_empty.
Defined.

(** ** What a read leaves behind *)

(** X18. ReadLogs changes no object that exists (it closes nothing); for
    an unknown source it leaves the world as it was; whenever it fails it
    launches nothing; and when it fails because the json logger cannot be
    read back, the pipe made on line 136, before the type assertion, is
    left on the heap with no goroutine to write to it. *)
Theorem ReadLogs_frame info0 config (w : World) :
  wf w →
  (∀ l o, heap w !! l = Some o → heap (ReadLogs info0 config w).2 !! l = Some o) ∧
  (idx w !! ContainerID info0 = None → (ReadLogs info0 config w).2 = w) ∧
  (∀ e, (ReadLogs info0 config w).1 = Fail e →
     tasks (ReadLogs info0 config w).2 = tasks w) ∧
  ((ReadLogs info0 config w).1 = Fail ErrUnsupported →
     heap w !! next w = None ∧
     heap (ReadLogs info0 config w).2 !! next w = Some (OPipe (empty_pipe None))).
Proof.
  intros (_ & _ & Hh).
  assert (heap w !! next w = None) as Hfresh.
  { destruct (heap w !! next w) as [o|] eqn:Ho; [|done].
    specialize (Hh _ _ Ho). simpl in Hh. lia. }
  pose proof (ReadLogs_cases info0 config w) as H.
  destruct (idx w !! ContainerID info0) as [lf|] eqn:Hc.
  2: { rewrite H. simpl. by split_and!. }
  simpl in H. destruct (as_LogReader (jsonl lf)); rewrite H; simpl.
  - split_and!; try done.
    intros l o Ho. rewrite lookup_insert_ne; [done|]. intros <-. congruence.
  - split_and!; try done.
    + intros l o Ho. rewrite lookup_insert_ne; [done|]. intros <-. congruence.
    + intros _. split; [done|]. apply lookup_insert_eq.
Qed.

Lemma ReadLogs_frame_witness :
  heap (ReadLogs info_c1 cfg_all world_no_reader).2 !! 2 = Some (OFifo "A" false) ∧
  tasks (ReadLogs info_c1 cfg_all world_no_reader).2 = tasks world_no_reader ∧
  heap (ReadLogs info_c1 cfg_all world_no_reader).2 !! next world_no_reader =
    Some (OPipe (empty_pipe None)).
Proof.
  assert (wf world_no_reader) as Hwf by (apply wf_StartLogging, wf_boot).
  destruct (ReadLogs_frame info_c1 cfg_all world_no_reader Hwf) as (H1 & _ & H3 & H4).
  split_and!.
  - by apply H1.
  - by apply (H3 ErrUnsupported).
  - by apply H4.
Defined.

(** ** The frame *)


(** ** Duplicate starts over sequences *)

(** X20. Once a start of a file has returned nil, every later start of
    that file fails with the already-exists error and changes nothing,
    whatever calls come in between, as long as none of them is a stop of
    that file. *)
Theorem StartLogging_again_fails E E' file logCtx logCtx' os
    (w : World) (w1 : World) :
  StartLogging E file logCtx w = (Ok tt, w1) →
  (∀ j, os !! j ≠ Some (OpStop file)) →
  StartLogging E' file logCtx' (run_ops os w1).2 =
    (Fail (ErrAlreadyExists file), (run_ops os w1).2).
Proof.
  intros Hrun Hnostop.
  assert (is_Some (logs w1 !! file)) as Hreg.
  { destruct (logs w !! file) as [lf|] eqn:Hfile.
    { by rewrite (StartLogging_Some _ _ _ lf) in Hrun. }
    destruct (StartLogging_cases E file logCtx w Hfile)
      as [(tj & ts & _ & _ & Heq)|(e0 & w0 & Heq & _)];
      rewrite Heq in Hrun; [|done].
    simplify_eq. simpl. rewrite lookup_insert_eq. eauto. }
  destruct (run_ops os w1) as [rs w2] eqn:Hops. simpl.
  assert (is_Some (logs w2 !! file)) as [lf Hlf].
  { apply (run_ops_logs os w1 rs w2 file Hops). by right. }
  by apply (StartLogging_Some _ _ _ lf).
Qed.

Lemma StartLogging_again_fails_witness :
  StartLogging env_ok "A" info_c2
      (run_ops [OpStop "B"; OpRead info_c1 cfg_all; OpStart env_ok "B" info_c2]
         world_A).2 =
    (Fail (ErrAlreadyExists "A"),
     (run_ops [OpStop "B"; OpRead info_c1 cfg_all; OpStart env_ok "B" info_c2]
        world_A).2).
Proof.
  apply (StartLogging_again_fails env_ok env_ok "A" info_c1 info_c2 _ boot world_A).
  - reflexivity.
  - intros [|[|[|j]]]; simpl; done.
Defined.
